(** * The static world map of the game server (packages/server, game/map/map.ts)

    A shallow embedding of the [Map] class: coordinate indexing, collision
    queries, door linking, rotated-tile decoding and the static area groups,
    followed by the properties its specification states about them.

    JavaScript numbers that hold tile coordinates, tile indices and tile
    identifiers are modelled as mathematical integers ([Z]); the 32-bit
    behaviour of the bitwise operators is written out, and so is the
    rounding of a double where a property computes with an index. Objects
    used as dictionaries are finite maps ([gmap]); arrays are lists. *)

From stdpp Require Import gmap strings list fin_maps pretty.
From Stdlib Require Import ZArith Lia Ascii.

Local Open Scope Z_scope.

(** ** JavaScript primitives used by the class *)

(** [ToInt32]: the conversion every bitwise operator applies to its operands,
    wrapping an integer into the signed 32-bit range. *)
Definition ToInt32 (z : Z) : Z := (z + 2 ^ 31) mod 2 ^ 32 - 2 ^ 31.

(** [a & b], [a | b] and [~a]: the operands are wrapped to signed 32 bits and
    combined bit by bit in two's complement; the result of combining two
    signed 32-bit values is again one, so no further wrap is needed. *)
Definition js_and (a b : Z) : Z := Z.land (ToInt32 a) (ToInt32 b).
Definition js_or (a b : Z) : Z := Z.lor (ToInt32 a) (ToInt32 b).
Definition js_not (a : Z) : Z := Z.lnot (ToInt32 a).

(** Truthiness of a number ([!!n]) and of a string ([!!s]). *)
Definition truthy_num (n : Z) : bool := negb (n =? 0).
Definition truthy_str (s : string) : bool :=
  match s with EmptyString => false | String _ _ => true end.

(** [o || d] for an optional property [o]: the default [d] replaces a value
    that is missing or falsy. *)
Definition or_else {A} (truthy : A → bool) (o : option A) (d : A) : A :=
  match o with
  | Some a => if truthy a then a else d
  | None => d
  end.

(** [Array.prototype.includes] on an array of numbers. *)
Definition includes (l : list Z) (n : Z) : bool := bool_decide (n ∈ l).

(** [array[index]] for a numeric index: [None] is [undefined]. *)
Definition array_get {A} (l : list A) (index : Z) : option A :=
  if index <? 0 then None else l !! Z.to_nat index.

(** ** Modules.MapFlags *)

(** Modelled from the spec: the enum [Modules.MapFlags] of the common network
    module is not part of the sources at hand. The three flags are the three
    highest-order bits of a 32-bit tile identifier, the diagonal flag being the
    lowest of them (the tile-flipping convention of the Tiled map format that
    [getFlippedTile] refers to). *)
Definition HORIZONTAL_FLAG : Z := 2 ^ 31.
Definition VERTICAL_FLAG : Z := 2 ^ 30.
Definition DIAGONAL_FLAG : Z := 2 ^ 29.

(** ** Data model *)

(** [Tile]: a cell of the tile data is one identifier or a stack of them. *)
Inductive Tile :=
  | Single (tileId : Z)
  | Stack (tileIds : list Z).

(** [!data] for a cell read from the data array: an absent cell and the
    number 0 are falsy, every array (the empty one too) is truthy. *)
Definition cell_falsy (c : option Tile) : bool :=
  match c with
  | None => true
  | Some (Single n) => negb (truthy_num n)
  | Some (Stack _) => false
  end.

(** [RotatedTile]: the decoded form of a flipped tile identifier. *)
Record RotatedTile := mkRotatedTile {
  rt_tileId : Z;
  rt_h : bool;
  rt_v : bool;
  rt_d : bool
}.

(** [RegionTile]: what [getTileData] hands to the region code: one entry (a
    plain identifier or a rotated tile) or an array of entries. *)
Inductive TileEntry :=
  | TNum (n : Z)
  | TRot (r : RotatedTile).

Inductive RegionTile :=
  | RTile (t : TileEntry)
  | RArr (l : list TileEntry).

(** [ProcessedArea]: a raw area of the dataset, with the fields a door uses.
    Optional properties are [option]s. *)
Record ProcessedArea := mkArea {
  a_id : Z;
  a_x : Z;
  a_y : Z;
  a_destination : option Z;
  a_orientation : option string;
  a_quest : option string;
  a_achievement : option string;
  a_stage : option Z
}.

(** [ProcessedDoor]: a linked door, as stored in the door table. *)
Record ProcessedDoor := mkDoor {
  d_x : Z;
  d_y : Z;
  d_orientation : string;
  d_quest : string;
  d_achievement : string;
  d_stage : Z
}.

(** [ProcessedMap]: the parsed world dataset ([map] in the module). The area
    groups are an object keyed by group name; [doors] is one of its keys. *)
Record ProcessedMap := mkProcessedMap {
  pm_width : Z;
  pm_height : Z;
  pm_data : list Tile;
  pm_collisions : option (list Z);
  pm_objects : list Z;
  pm_cursors : gmap Z string;
  pm_areas : gmap string (list ProcessedArea)
}.

(** The [Map] instance. [Areas] is the class of an area group, which lives in
    the areas directory. [log] is the output of the logger, which the class
    never writes to. *)
Record Map {Areas : Type} := mkMap {
  width : Z;
  height : Z;
  data : list Tile;
  collisions : list Z;
  objects : list Z;
  cursors : gmap Z string;
  doors : gmap Z ProcessedDoor;
  chest : list ProcessedArea;
  areas : gmap string Areas;
  log : list string
}.
Arguments Map : clear implicits.

(** ** Coordinate codec *)

Definition coordToIndex (w : Z) (x y : Z) : Z := y * w + x.

(** [index % width] is the truncated remainder; [Math.floor(index / width)]
    is the floor of the quotient. *)
Definition indexToCoord (w : Z) (index : Z) : Z * Z :=
  (Z.rem index w, index / w).

Definition isFlipped (tileId : Z) : bool := DIAGONAL_FLAG <? tileId.

Definition getFlippedTile (tileId : Z) : RotatedTile :=
  let h := truthy_num (js_and tileId HORIZONTAL_FLAG) in
  let v := truthy_num (js_and tileId VERTICAL_FLAG) in
  let d := truthy_num (js_and tileId DIAGONAL_FLAG) in
  let tileId :=
    js_and tileId
      (js_not (js_or (js_or DIAGONAL_FLAG VERTICAL_FLAG) HORIZONTAL_FLAG)) in
  mkRotatedTile tileId h v d.

(** ** Iteration over a cell *)

(** [forEachTile]: the callback runs once on a scalar, or once per element of
    an array from left to right ([_.each]; none of the callbacks of this class
    returns [false], so the iteration never stops early). A callback is a
    transformer of the variables it captures. *)
Definition forEachTile {S} (data : Tile) (callback : Z → S → S) (s : S)
    : S :=
  match data with
  | Stack l => foldl (λ s tileId, callback tileId s) s l
  | Single n => callback n s
  end.

(** ** Door linking *)

(** The state [loadDoors] works on: the door table and the logger output. *)
Record LinkState := mkLinkState {
  ls_doors : gmap Z ProcessedDoor;
  ls_log : list string
}.

(** The body of the [_.each] callback of [loadDoors], for one raw door. *)
Definition linkDoor (w : Z) (doorsClone : list ProcessedArea)
    (st : LinkState) (door : ProcessedArea) : LinkState :=
  match a_destination door with
  | None => st
  | Some dest =>
    if negb (truthy_num dest) then st
    else
      let index := coordToIndex w (a_x door) (a_y door) in
      match List.find (λ cloneDoor, dest =? a_id cloneDoor) doorsClone with
      | None => st
      | Some destination =>
        mkLinkState
          (<[index := mkDoor (a_x destination) (a_y destination)
               (or_else truthy_str (a_orientation destination) "d")
               (or_else truthy_str (a_quest door) "")
               (or_else truthy_str (a_achievement door) "")
               (or_else truthy_num (a_stage door) 0)]> (ls_doors st))
          (ls_log st)
      end
  end.

(** [loadDoors]: the table starts empty, the clone of the raw list holds the
    same values, and the raw doors are processed in list order. *)
Definition loadDoors (w : Z) (rawDoors : list ProcessedArea)
    (log0 : list string) : LinkState :=
  let doorsClone := rawDoors in
  foldl (linkDoor w doorsClone) (mkLinkState ∅ log0) rawDoors.

(** ** Area groups *)

Section AreaGroups.
(** [Areas] and [AreasIndex] come from the areas directory: the index maps a
    group name to the constructor of its group class. *)
Context {Areas : Type}.
Variable AreasIndex : gmap string (list ProcessedArea → Areas).

(** [loadAreas]: every group of the dataset whose key is in the index is
    constructed and stored under that same key. The keys of an object are
    distinct, so the order of the iteration does not show in the result. *)
Definition loadAreas (rawAreas : gmap string (list ProcessedArea))
    : gmap string Areas :=
  map_fold
    (λ key area acc,
       match AreasIndex !! key with
       | None => acc
       | Some construct => <[key := construct area]> acc
       end)
    ∅ rawAreas.

(** The constructor of the class, up to the region and grid helpers. *)
Definition new_Map (map : ProcessedMap) : Map Areas :=
  let st := loadDoors (pm_width map)
              (default [] (pm_areas map !! "doors")) [] in
  mkMap Areas (pm_width map) (pm_height map) (pm_data map)
    (default [] (pm_collisions map)) (pm_objects map) (pm_cursors map)
    (ls_doors st)
    (default [] (pm_areas map !! "chest"))
    (loadAreas (pm_areas map))
    (ls_log st).
End AreaGroups.

(** ** Queries *)

Section Queries.
Context {Areas : Type}.
Variable this : Map Areas.

Definition isDoor (x y : Z) : bool :=
  bool_decide (is_Some (doors this !! coordToIndex (width this) x y)).

Definition getDoor (x y : Z) : option ProcessedDoor :=
  doors this !! coordToIndex (width this) x y.

Definition isOutOfBounds (x y : Z) : bool :=
  (x <? 0) || (width this <=? x) || (y <? 0) || (height this <=? y).

Definition isCollisionIndex (index : Z) : bool :=
  includes (collisions this) index.

Definition isColliding (x y : Z) : bool :=
  if isOutOfBounds x y then true
  else
    let index := coordToIndex (width this) x y in
    cell_falsy (array_get (data this) index) || isCollisionIndex index.

Definition isObject (data : Tile) : bool :=
  forEachTile data
    (λ tileId isObject,
       if includes (objects this) tileId then true else isObject)
    false.

Definition getChestAreas : option Areas := areas this !! "chests".

Definition getDynamicAreas : option Areas := areas this !! "dynamic".

Definition getCursor (data : Tile) : string :=
  forEachTile data
    (λ tileId cursor,
       match cursors this !! tileId with
       | Some name => name
       | None => cursor
       end)
    "".

Definition getTileData (index : Z) : RegionTile :=
  let data := array_get (data this) index in
  if cell_falsy data then RArr []
  else
    match data with
    | None => RArr []
    | Some data =>
      let isArray :=
        match data with Stack _ => true | Single _ => false end in
      let parsedData := if isArray then RArr [] else RTile (TNum 0) in
      forEachTile data
        (λ tileId parsedData,
           let tile :=
             if isFlipped tileId then TRot (getFlippedTile tileId)
             else TNum tileId in
           if isArray then
             match parsedData with
             | RArr l => RArr (l ++ [tile])
             | other => other
             end
           else RTile tile)
        parsedData
    end.
End Queries.

(** ** Vocabulary of the specification *)

(** The identifiers of a cell, in the order [forEachTile] meets them. *)
Definition tileIds (data : Tile) : list Z :=
  match data with
  | Single n => [n]
  | Stack l => l
  end.

(** The three flag bits together, and the flags re-applied onto a base
    identifier by bitwise OR (the encoder the specification speaks of; the
    class has none). Identifiers are unsigned 32-bit values. *)
Definition ALL_FLAGS : Z :=
  Z.lor (Z.lor DIAGONAL_FLAG VERTICAL_FLAG) HORIZONTAL_FLAG.

Definition applyFlags (base : Z) (h v d : bool) : Z :=
  Z.lor (Z.lor (Z.lor base (if h then HORIZONTAL_FLAG else 0))
           (if v then VERTICAL_FLAG else 0))
    (if d then DIAGONAL_FLAG else 0).

(** The render-ready form of one identifier, in the words of the
    specification: an identifier above the diagonal flag is decoded, any other
    stays the number it is. *)
Definition decodeEntry (tileId : Z) : TileEntry :=
  if DIAGONAL_FLAG <? tileId then TRot (getFlippedTile tileId)
  else TNum tileId.

(** [dest] is the first raw door, in list order, whose own id is [i]. *)
Definition first_with_id (rawDoors : list ProcessedArea) (i : Z)
    (dest : ProcessedArea) : Prop :=
  ∃ before after,
    rawDoors = before ++ dest :: after ∧ a_id dest = i ∧
    Forall (λ c, a_id c ≠ i) before.

(** [door] declares a non-zero destination identifier, and [dest] is the raw
    door that identifier resolves to. *)
Definition resolves_to (rawDoors : list ProcessedArea)
    (door dest : ProcessedArea) : Prop :=
  ∃ i,
    a_destination door = Some i ∧ i ≠ 0 ∧ first_with_id rawDoors i dest.

(** The table entry of a source door linked to its destination door: a
    property that is unset or empty takes its default. *)
Definition text_or (o : option string) (d : string) : string :=
  match o with
  | None | Some EmptyString => d
  | Some s => s
  end.

Definition linkedEntry (door dest : ProcessedArea) : ProcessedDoor :=
  mkDoor (a_x dest) (a_y dest) (text_or (a_orientation dest) "d")
    (text_or (a_quest door) "") (text_or (a_achievement door) "")
    (default 0 (a_stage door)).

(** What one raw door contributes to the table: nothing, or an entry under
    its tile index. *)
Definition doorEntry (w : Z) (doorsClone : list ProcessedArea)
    (door : ProcessedArea) : option (Z * ProcessedDoor) :=
  let st := linkDoor w doorsClone (mkLinkState ∅ []) door in
  let index := coordToIndex w (a_x door) (a_y door) in
  (λ e, (index, e)) <$> ls_doors st !! index.

(** ** Sample data *)

(** The two raw doors of the door example of the specification. *)
Definition sampleDoors : list ProcessedArea :=
  [ mkArea 1 5 5 (Some 2) None None None None;
    mkArea 2 10 10 None (Some "u") None None None ].

(** A raw door that names itself, with identifier 0. *)
Definition zeroDoors : list ProcessedArea :=
  [ mkArea 0 1 1 (Some 0) None None None None ].

(** A door whose destination door carries an empty orientation. *)
Definition blankOrientationDoors : list ProcessedArea :=
  [ mkArea 1 5 5 (Some 2) None None None None;
    mkArea 2 10 10 None (Some "") None None None ].

(** Two linked doors on one tile, leading to different destinations. *)
Definition stackedDoors : list ProcessedArea :=
  [ mkArea 1 1 1 (Some 3) None None None None;
    mkArea 2 1 1 (Some 4) None None None None;
    mkArea 3 7 7 None None None None None;
    mkArea 4 8 8 None None None None None ].

(** An unresolved door sharing its tile with a resolvable one. *)
Definition sharedTileDoors : list ProcessedArea :=
  [ mkArea 1 1 1 (Some 9) None None None None;
    mkArea 2 1 1 (Some 2) None None None None ].

(** A dataset whose only area group is a chest group under the key [chest],
    and an index that knows both [chest] and [chests]. *)
Definition chestArea : ProcessedArea := mkArea 7 3 4 None None None None None.

Definition chestOnlyMap : ProcessedMap :=
  mkProcessedMap 10 10 [] None [] ∅ {[ "chest" := [chestArea] ]}.

Definition sampleIndex
    : gmap string (list ProcessedArea → list ProcessedArea) :=
  {[ "chest" := λ raw, raw; "chests" := λ raw, raw ]}.

Definition chestsMap : ProcessedMap :=
  mkProcessedMap 10 10 [] None [] ∅ {[ "chests" := [chestArea] ]}.

(** A map holding object identifier 7 and a cursor for identifiers 3 and 9. *)
Definition sampleMap : Map unit :=
  mkMap unit 4 3
    [Single 5; Single 0; Stack [3; 2 ^ 31 + 6]; Single (2 ^ 29 + 2 ^ 30 + 1)]
    [0; 6] [7] {[ 3 := "hand"; 9 := "talk" ]} ∅ [] ∅ [].

(** ** Numbers as doubles *)

(** A JavaScript number is a double. The class computes with integers, and
    sums, products and floored quotients of integers are exact as long as
    they stay within 53 bits; beyond that every result is rounded to the
    nearest double. [coordToIndex] and [indexToCoord] above are the exact
    computations; [coordToIndex_double] and [indexToCoord_double] below are
    the same computations with the rounding written out. The exponent range
    of a double is not modelled: no result is infinite or not a number. *)

(** The integer nearest to [n / d], for [d] above 0; of two integers equally
    near, the even one. *)
Definition round_even (n d : Z) : Z :=
  let q := n / d in
  let r := n mod d in
  if 2 * r <? d then q
  else if d <? 2 * r then q + 1
  else if Z.even q then q else q + 1.

(** The double nearest to an integer: the integer itself when it fits in 53
    bits, else the nearest multiple of the power of two that leaves 53
    significant bits, ties to the even multiple. *)
Definition fl (z : Z) : Z :=
  let e := Z.log2 (Z.abs z) - 52 in
  if e <=? 0 then z else round_even z (2 ^ e) * 2 ^ e.

(** The quotient [A / B] of two integers above 0 scaled by [2 ^ (- e)], as a
    fraction of integers. *)
Definition scale_num (A e : Z) : Z := if 0 <=? e then A else A * 2 ^ (- e).
Definition scale_den (B e : Z) : Z := if 0 <=? e then B * 2 ^ e else B.

(** The exponent [e] for which [A / B] scaled by [2 ^ (- e)] lies between
    [2 ^ 52] and [2 ^ 53]. *)
Definition quot_exp (A B : Z) : Z :=
  let l := Z.log2 A - Z.log2 B - 52 in
  if 2 ^ 52 * scale_den B l <=? scale_num A l then l else l - 1.

(** [Math.floor(a / b)] for integers [a] and [b] that are doubles: the
    quotient is rounded to the nearest double (53 significant bits, ties to
    even) and then floored. A division by 0 gives no integer; the model
    returns 0 there and no property below divides by 0. *)
Definition floor_div_double (a b : Z) : Z :=
  if (a =? 0) || (b =? 0) then 0
  else
    let A := Z.abs a in
    let B := Z.abs b in
    let e := quot_exp A B in
    let m := round_even (scale_num A e) (scale_den B e) in
    let sm := if xorb (a <? 0) (b <? 0) then - m else m in
    if 0 <=? e then sm * 2 ^ e else sm / 2 ^ (- e).

(** [coordToIndex] in doubles: the product is rounded, then the sum. *)
Definition coordToIndex_double (w : Z) (x y : Z) : Z := fl (fl (y * w) + x).

(** [indexToCoord] in doubles: [%] is exact on doubles, the quotient is
    rounded before [Math.floor]. A width of 0 gives no number in the class;
    no property below takes one. *)
Definition indexToCoord_double (w : Z) (index : Z) : Z * Z :=
  (Z.rem index w, floor_div_double index w).

(** A number written in decimal, as a template string does for an integer
    that fits in 53 bits. [None] stands for a number whose printed form this
    model does not give. *)
Definition numberToString (z : Z) : option string :=
  if Z.abs z <=? 2 ^ 53 then Some (pretty z) else None.

(** ** Plateau levels, object ids and the iterators of the class *)

(** [getPlateauLevel]: [plateau] is the plateau object of the instance, keyed
    by tile index. *)
Definition getPlateauLevel (w : Z) (plateau : gmap Z Z) (x y : Z) : Z :=
  let index := coordToIndex_double w x y in
  match plateau !! index with
  | None => 0
  | Some level => level
  end.

(** [getObjectId]: the template string writes both coordinates in decimal,
    a negative one with a leading minus sign. *)
Definition getObjectId (w : Z) (tileIndex : Z) : option string :=
  let position := indexToCoord_double w tileIndex in
  x ← numberToString position.1;
  y ← numberToString position.2;
  Some (x +:+ "-" +:+ y).

(** [forEachAreas]: the callback runs once per group of the instance. The
    order in which an object hands out its keys is not modelled. *)
Definition forEachAreas {Areas S} (this : Map Areas)
    (callback : Areas → string → S → S) (s : S) : S :=
  map_fold (λ name a s, callback a name s) s (areas this).

(** [forEachEntity]: [entities] is the entities object of the instance; a key
    is the tile index [parseInt] reads back from the property name. The order
    in which an object hands out its keys is not modelled. *)
Definition forEachEntity {S} (w : Z) (entities : gmap Z string)
    (callback : Z * Z → string → S → S) (s : S) : S :=
  map_fold (λ tileId key s, callback (indexToCoord_double w tileId) key s)
    s entities.

(** The identifier an entry of a region tile stands for: the number itself,
    or the flags of a rotated tile re-applied onto its base identifier. *)
Definition entryId (t : TileEntry) : Z :=
  match t with
  | TNum n => n
  | TRot r => applyFlags (rt_tileId r) (rt_h r) (rt_v r) (rt_d r)
  end.

Definition regionIds (r : RegionTile) : list Z :=
  match r with
  | RTile t => [entryId t]
  | RArr l => map entryId l
  end.

(** A string without a minus sign. *)
Fixpoint dashless (s : string) : Prop :=
  match s with
  | EmptyString => True
  | String c rest => c ≠ "-"%char ∧ dashless rest
  end.

(** ** Poison (game/entity/character/poison.ts) *)

Module Poison.

(** An entry of [Modules.PoisonInfo]; duration and rate are in seconds. *)
Record Info := mkInfo {
  info_name : string;
  info_damage : Z;
  info_duration : Z;
  info_rate : Z
}.

(** A poison status; duration, rate and start are in milliseconds. *)
Record t {PoisonTypes : Type} := mk {
  type : PoisonTypes;
  start : Z;
  name : string;
  damage : Z;
  duration : Z;
  rate : Z
}.
Arguments t : clear implicits.

Section WithTable.
(** The enum [Modules.PoisonTypes] and the table [Modules.PoisonInfo] belong
    to the common network module. *)
Context {PoisonTypes : Type}.
Variable PoisonInfo : PoisonTypes → Info.

(** The constructor; [now] is what [Date.now()] returns when the poison is
    created, used when no start is given. *)
Definition new (type : PoisonTypes) (start : option Z) (now : Z)
    : t PoisonTypes :=
  mk PoisonTypes type (default now start)
    (info_name (PoisonInfo type))
    (info_damage (PoisonInfo type))
    (info_duration (PoisonInfo type) * 1000)
    (info_rate (PoisonInfo type) * 1000).
End WithTable.

(** [expired]; [now] is what [Date.now()] returns at the call. *)
Definition expired {PoisonTypes} (this : t PoisonTypes) (now : Z) : bool :=
  if duration this <? 0 then false
  else duration this <=? now - start this.

End Poison.

(** A table with a poison of five seconds and one that lasts until cured. *)
Definition samplePoisonInfo (venom : bool) : Poison.Info :=
  if venom then Poison.mkInfo "Venom" 5 (-1) 2
  else Poison.mkInfo "Sting" 2 5 1.

(** A map with two registered area groups. *)
Definition sampleAreasMap : ProcessedMap :=
  mkProcessedMap 10 10 [] None [] ∅
    {[ "chests" := [chestArea]; "music" := []; "chest" := [chestArea] ]}.

(** * Properties *)

(** ** Bitwise operators on 32-bit identifiers *)

Lemma ToInt32_unsigned z :
  0 <= z < 2 ^ 32 → ToInt32 z = if z <? 2 ^ 31 then z else z - 2 ^ 32.
Proof.
  intros Hz. unfold ToInt32.
  destruct (Z.ltb_spec z (2 ^ 31)); Z.div_mod_to_equations; lia.
Qed.

Lemma land_pow2 a n :
  0 <= n → Z.land a (2 ^ n) = if Z.testbit a n then 2 ^ n else 0.
Proof.
  intros Hn. apply Z.bits_inj'. intros i Hi.
  rewrite Z.land_spec.
  destruct (Z.testbit a n) eqn:Ha.
  - rewrite Z.pow2_bits_eqb by done.
    destruct (Z.eqb_spec n i) as [->|]; [by rewrite Ha|by rewrite andb_false_r].
  - rewrite Z.pow2_bits_eqb by done. rewrite Z.bits_0.
    destruct (Z.eqb_spec n i) as [<-|]; [by rewrite Ha|by rewrite andb_false_r].
Qed.

Lemma truthy_land_pow2 a n :
  0 <= n → truthy_num (Z.land a (2 ^ n)) = Z.odd (a / 2 ^ n).
Proof.
  intros Hn. rewrite land_pow2 by done.
  rewrite Z.testbit_odd, Z.shiftr_div_pow2 by done.
  destruct (Z.odd _); [|done].
  unfold truthy_num. destruct (Z.eqb_spec (2 ^ n) 0); [|done].
  pose proof (Z.pow_pos_nonneg 2 n). lia.
Qed.

Lemma land_high_mask a n :
  0 <= n → Z.land a (- 2 ^ n) = a / 2 ^ n * 2 ^ n.
Proof.
  intros Hn.
  replace (- 2 ^ n) with (Z.lnot (Z.ones n)).
  - rewrite <- Z.ldiff_land, Z.ldiff_ones_r by done.
    by rewrite Z.shiftl_mul_pow2, Z.shiftr_div_pow2.
  - rewrite Z.ones_equiv. unfold Z.lnot. lia.
Qed.

Lemma lor_disjoint_add a k n :
  0 <= n → 0 <= a < 2 ^ n → Z.lor a (k * 2 ^ n) = a + k * 2 ^ n.
Proof.
  intros Hn Ha.
  assert (Hland : Z.land a (k * 2 ^ n) = 0).
  { apply Z.bits_inj'. intros i Hi. rewrite Z.land_spec, Z.bits_0.
    destruct (Z.lt_ge_cases i n).
    - rewrite Z.mul_pow2_bits_low by lia. apply andb_false_r.
    - destruct (Z.eq_dec a 0) as [->|]; [by rewrite Z.bits_0|].
      rewrite (Z.bits_above_log2 a i); [done|lia|].
      apply Z.lt_le_trans with n; [|done]. apply Z.log2_lt_pow2; lia. }
  rewrite Z.add_nocarry_lxor by done. symmetry. by apply Z.lxor_lor.
Qed.

(** A base identifier of 32 bits with none of the flag bits set lies below the
    diagonal flag. *)
Lemma no_flags_below_diagonal base :
  0 <= base < 2 ^ 32 → Z.land base ALL_FLAGS = 0 → base < DIAGONAL_FLAG.
Proof.
  intros Hb Hland.
  destruct (Z.lt_ge_cases base DIAGONAL_FLAG) as [|Hge]; [done|exfalso].
  unfold DIAGONAL_FLAG in Hge.
  assert (Hpos : 0 < base) by lia.
  pose proof (Z.bit_log2 base Hpos) as Hbit.
  assert (Hlog : 29 <= Z.log2 base < 32).
  { split; [by apply Z.log2_le_pow2|apply Z.log2_lt_pow2; lia]. }
  assert (Hmask : Z.testbit ALL_FLAGS (Z.log2 base) = true).
  { assert (Hc : Z.log2 base = 29 ∨ Z.log2 base = 30 ∨ Z.log2 base = 31)
      by lia.
    destruct Hc as [-> | [-> | ->]]; reflexivity. }
  assert (Hboth : Z.testbit (Z.land base ALL_FLAGS) (Z.log2 base) = true)
    by (rewrite Z.land_spec, Hbit, Hmask; done).
  rewrite Hland, Z.bits_0 in Hboth. done.
Qed.

(** The flags re-applied onto a base below the diagonal flag add up. *)
Lemma applyFlags_add base h v d :
  0 <= base < 2 ^ 29 →
  applyFlags base h v d =
    base + (if h then 2 ^ 31 else 0) + (if v then 2 ^ 30 else 0)
    + (if d then 2 ^ 29 else 0).
Proof.
  intros Hb. unfold applyFlags.
  rewrite <- !Z.lor_assoc.
  destruct h, v, d;
    match goal with
    | |- Z.lor base ?c = _ =>
      let k := eval vm_compute in (c / 2 ^ 29) in
      change c with (k * 2 ^ 29); rewrite lor_disjoint_add by lia
    end; lia.
Qed.

(** The decoder on an unsigned 32-bit identifier, in arithmetic terms: the low
    29 bits are the base identifier, bits 31, 30 and 29 the flags. *)
Lemma getFlippedTile_unsigned raw :
  0 <= raw < 2 ^ 32 →
  getFlippedTile raw =
    mkRotatedTile (raw mod 2 ^ 29) (2 ^ 31 <=? raw)
      (Z.odd (raw / 2 ^ 30)) (Z.odd (raw / 2 ^ 29)).
Proof.
  intros Hraw. unfold getFlippedTile, js_and.
  change (ToInt32 HORIZONTAL_FLAG) with (- 2 ^ 31).
  change (ToInt32 VERTICAL_FLAG) with (2 ^ 30).
  change (ToInt32 DIAGONAL_FLAG) with (2 ^ 29).
  change (ToInt32 (js_not _)) with (Z.ones 29).
  rewrite Z.land_ones, land_high_mask, !truthy_land_pow2 by lia.
  rewrite ToInt32_unsigned by done.
  destruct (Z.ltb_spec raw (2 ^ 31)) as [Hlt|Hge].
  - replace (raw / 2 ^ 31) with 0 by (Z.div_mod_to_equations; lia).
    destruct (Z.leb_spec (2 ^ 31) raw); [lia|done].
  - replace ((raw - 2 ^ 32) / 2 ^ 31) with (-1)
      by (Z.div_mod_to_equations; lia).
    replace ((raw - 2 ^ 32) / 2 ^ 30) with (raw / 2 ^ 30 + 2 * (-2))
      by (Z.div_mod_to_equations; lia).
    replace ((raw - 2 ^ 32) / 2 ^ 29) with (raw / 2 ^ 29 + 2 * (-4))
      by (Z.div_mod_to_equations; lia).
    replace ((raw - 2 ^ 32) mod 2 ^ 29) with (raw mod 2 ^ 29)
      by (Z.div_mod_to_equations; lia).
    rewrite !Z.odd_add_mul_2.
    destruct (Z.leb_spec (2 ^ 31) raw); [done|lia].
Qed.

(** C2. For every raw identifier made of a 32-bit base identifier with none of
    the three flag bits set and any subset of the horizontal, vertical and
    diagonal flags, [getFlippedTile] returns that base identifier together
    with exactly the flags present in the raw value, and re-applying the
    returned flags onto the returned base identifier by bitwise OR gives the
    raw identifier back. *)
Theorem getFlippedTile_roundtrip (base : Z) (h v d : bool) :
  0 <= base < 2 ^ 32 →
  Z.land base ALL_FLAGS = 0 →
  getFlippedTile (applyFlags base h v d) = mkRotatedTile base h v d ∧
  (let decoded := getFlippedTile (applyFlags base h v d) in
   applyFlags (rt_tileId decoded) (rt_h decoded) (rt_v decoded) (rt_d decoded)
   = applyFlags base h v d).
Proof.
  intros Hrange Hnone.
  pose proof (no_flags_below_diagonal base Hrange Hnone) as Hlow.
  unfold DIAGONAL_FLAG in Hlow.
  assert (Hdec : getFlippedTile (applyFlags base h v d)
                 = mkRotatedTile base h v d).
  { rewrite applyFlags_add by lia.
    rewrite getFlippedTile_unsigned by (destruct h, v, d; lia).
    f_equal.
    - destruct h, v, d; Z.div_mod_to_equations; lia.
    - destruct (Z.leb_spec (2 ^ 31)
        (base + (if h then 2 ^ 31 else 0) + (if v then 2 ^ 30 else 0)
         + (if d then 2 ^ 29 else 0))); destruct h, v, d; (done || lia).
    - destruct h, v, d;
        match goal with
        | |- Z.odd (?a / _) = ?b =>
          let k := constr:(if b then 1 else 0) in
          first
            [ replace (a / 2 ^ 30) with (0 + k)
                by (simpl; Z.div_mod_to_equations; lia)
            | replace (a / 2 ^ 30) with (2 + k)
                by (simpl; Z.div_mod_to_equations; lia) ]
        end; reflexivity.
    - destruct h, v, d;
        match goal with
        | |- Z.odd (?a / _) = ?b =>
          let k := constr:(if b then 1 else 0) in
          first
            [ replace (a / 2 ^ 29) with (0 + k)
                by (simpl; Z.div_mod_to_equations; lia)
            | replace (a / 2 ^ 29) with (2 + k)
                by (simpl; Z.div_mod_to_equations; lia)
            | replace (a / 2 ^ 29) with (4 + k)
                by (simpl; Z.div_mod_to_equations; lia)
            | replace (a / 2 ^ 29) with (6 + k)
                by (simpl; Z.div_mod_to_equations; lia) ]
        end; reflexivity. }
  split; [done|]. rewrite Hdec. reflexivity.
Qed.

Lemma getFlippedTile_roundtrip_witness :
  getFlippedTile (applyFlags 5 true false true)
  = mkRotatedTile 5 true false true ∧
  (let decoded := getFlippedTile (applyFlags 5 true false true) in
   applyFlags (rt_tileId decoded) (rt_h decoded) (rt_v decoded) (rt_d decoded)
   = applyFlags 5 true false true).
Proof.
  apply (getFlippedTile_roundtrip 5 true false true); [lia|reflexivity].
Defined.

(** ** Doubles: exact within 53 bits *)

Lemma round_even_bounds (n d : Z) :
  0 < d →
  n / d <= round_even n d <= n / d + 1 ∧
  (round_even n d = n / d + 1 → d <= 2 * (n mod d)).
Proof.
  intros Hd. unfold round_even.
  destruct (Z.ltb_spec (2 * (n mod d)) d); [lia|].
  destruct (Z.ltb_spec d (2 * (n mod d))); [lia|].
  destruct (Z.even (n / d)); lia.
Qed.

Lemma round_even_divisible (n d : Z) :
  0 < d → n mod d = 0 → round_even n d = n / d.
Proof.
  intros Hd Hr. unfold round_even. rewrite Hr.
  destruct (Z.ltb_spec (2 * 0) d); [done|lia].
Qed.

(** An integer of at most 53 bits is a double. *)
Lemma fl_exact (z : Z) : Z.abs z <= 2 ^ 53 → fl z = z.
Proof.
  intros Hz. unfold fl.
  destruct (Z.leb_spec (Z.log2 (Z.abs z) - 52) 0) as [|He]; [done|].
  assert (Hlog : Z.log2 (Z.abs z) = 53).
  { assert (Hle : Z.log2 (Z.abs z) <= Z.log2 (2 ^ 53))
      by (by apply Z.log2_le_mono).
    rewrite Z.log2_pow2 in Hle by lia. lia. }
  assert (Habs : Z.abs z = 2 ^ 53).
  { pose proof (Z.log2_spec (Z.abs z)) as Hspec.
    assert (Hpos : 0 < Z.abs z).
    { destruct (Z.eq_dec (Z.abs z) 0) as [H0|]; [|lia].
      rewrite H0 in Hlog. discriminate. }
    specialize (Hspec Hpos). rewrite Hlog in Hspec. lia. }
  rewrite Hlog. change (53 - 52) with 1. change (2 ^ 1) with 2.
  rewrite round_even_divisible; [|lia|].
  - assert (z mod 2 = 0) by (destruct (Z.abs_spec z) as [[_ Hz']|[_ Hz']];
      rewrite Habs in Hz'; [subst z|replace z with (- 2 ^ 53) by lia];
      reflexivity).
    pose proof (Z.div_mod z 2). lia.
  - destruct (Z.abs_spec z) as [[_ Hz']|[_ Hz']]; rewrite Habs in Hz';
      [subst z|replace z with (- 2 ^ 53) by lia]; reflexivity.
Qed.

Lemma coordToIndex_double_exact (w x y : Z) :
  Z.abs (y * w) <= 2 ^ 53 → Z.abs (y * w + x) <= 2 ^ 53 →
  coordToIndex_double w x y = coordToIndex w x y.
Proof.
  intros Hprod Hsum. unfold coordToIndex_double, coordToIndex.
  rewrite (fl_exact (y * w)) by done. by apply fl_exact.
Qed.

Lemma quot_exp_normal (A B : Z) :
  0 < A → 0 < B →
  2 ^ 52 * scale_den B (quot_exp A B) <= scale_num A (quot_exp A B).
Proof.
  intros HA HB. unfold quot_exp.
  set (l := Z.log2 A - Z.log2 B - 52).
  destruct (Z.leb_spec (2 ^ 52 * scale_den B l) (scale_num A l)); [done|].
  pose proof (Z.log2_spec A HA) as [HAlo _].
  pose proof (Z.log2_spec B HB) as [_ HBhi].
  pose proof (Z.log2_nonneg A) as Hla. pose proof (Z.log2_nonneg B) as Hlb.
  unfold scale_den, scale_num.
  destruct (Z.leb_spec 0 (l - 1)) as [He|He].
  - assert (Hpow : 2 ^ Z.log2 A
                   = 2 ^ 52 * (2 ^ Z.succ (Z.log2 B) * 2 ^ (l - 1))).
    { rewrite <- !Z.pow_add_r by lia. f_equal. lia. }
    assert (0 < 2 ^ (l - 1)) by (apply Z.pow_pos_nonneg; lia).
    nia.
  - assert (Hpow : 2 ^ Z.log2 A * 2 ^ (- (l - 1))
                   = 2 ^ 52 * 2 ^ Z.succ (Z.log2 B)).
    { rewrite <- !Z.pow_add_r by lia. f_equal. lia. }
    assert (0 < 2 ^ (- (l - 1))) by (apply Z.pow_pos_nonneg; lia).
    nia.
Qed.

(** Rounding a quotient to 53 bits does not carry its floor to the next
    integer while the dividend fits in 53 bits. *)
Lemma rounded_quotient_floor (a b P m : Z) :
  0 <= a < 2 ^ 53 → 0 < b → 0 < P →
  2 ^ 52 * b <= a * P →
  a * P / b <= m <= a * P / b + 1 →
  (m = a * P / b + 1 → b <= 2 * ((a * P) mod b)) →
  m / P = a / b.
Proof.
  intros Ha Hb HP Hnorm Hm Hup.
  pose proof (Z.div_mod a b) as Hab.
  pose proof (Z.mod_pos_bound a b Hb) as Hr.
  pose proof (Z.div_mod (a * P) b) as HaP.
  pose proof (Z.mod_pos_bound (a * P) b Hb) as Hrr.
  set (q := a / b) in *. set (r := a mod b) in *.
  set (f := a * P / b) in *. set (rr := (a * P) mod b) in *.
  assert (Hlow : q * P <= f).
  { apply Z.div_le_lower_bound; [done|]. nia. }
  assert (Hhigh : f < (q + 1) * P).
  { apply Z.div_lt_upper_bound; [done|]. nia. }
  symmetry. apply (Z.div_unique_pos m P q (m - P * q)); [|lia].
  split; [nia|].
  destruct (Z.eq_dec m (f + 1)) as [Hm1|]; [|nia].
  specialize (Hup Hm1).
  destruct (Z.lt_ge_cases (f + 1) ((q + 1) * P)) as [|Hcarry]; [nia|].
  exfalso.
  assert (H2P : 2 * P <= b) by nia.
  nia.
Qed.

(** The floored quotient in doubles is the floored quotient, while the
    dividend fits in 53 bits. *)
Lemma floor_div_double_exact (a b : Z) :
  0 <= a < 2 ^ 53 → 0 < b → floor_div_double a b = a / b.
Proof.
  intros Ha Hb. unfold floor_div_double.
  destruct (Z.eqb_spec a 0) as [->|Hne]; [by rewrite Z.div_0_l by lia|].
  destruct (Z.eqb_spec b 0); [lia|]. cbn [orb].
  destruct (Z.ltb_spec a 0); [lia|]. destruct (Z.ltb_spec b 0); [lia|].
  cbn [xorb]. rewrite !Z.abs_eq by lia.
  pose proof (quot_exp_normal a b) as Hnorm.
  specialize (Hnorm ltac:(lia) Hb).
  set (e := quot_exp a b) in *.
  unfold scale_num, scale_den in *.
  destruct (Z.leb_spec 0 e) as [He|He].
  - assert (0 < 2 ^ e) by (apply Z.pow_pos_nonneg; lia).
    assert (Hone : b * 2 ^ e = 1) by nia.
    assert (b = 1) by nia. subst b.
    assert (Hpow : 2 ^ e = 1) by lia.
    rewrite Hpow. change (1 * 1) with 1.
    rewrite round_even_divisible by (rewrite ?Z.mod_1_r; lia).
    rewrite Z.div_1_r. lia.
  - assert (HP : 0 < 2 ^ (- e)) by (apply Z.pow_pos_nonneg; lia).
    pose proof (round_even_bounds (a * 2 ^ (- e)) b Hb) as [Hm Hup].
    by apply rounded_quotient_floor.
Qed.

Lemma indexToCoord_double_exact (w i : Z) :
  0 < w → 0 <= i < 2 ^ 53 →
  indexToCoord_double w i = indexToCoord w i.
Proof.
  intros Hw Hi. unfold indexToCoord_double, indexToCoord.
  by rewrite floor_div_double_exact.
Qed.

(** ** Coordinates and indices *)

Lemma indexToCoord_nonneg w i :
  0 < w → 0 <= i → indexToCoord w i = (i mod w, i / w).
Proof.
  intros Hw Hi. unfold indexToCoord. by rewrite Z.rem_mod_nonneg.
Qed.

Lemma indexToCoord_coordToIndex (w x y : Z) :
  0 <= x < w → 0 <= y → indexToCoord w (coordToIndex w x y) = (x, y).
Proof.
  intros Hx Hy. unfold coordToIndex.
  rewrite indexToCoord_nonneg by nia. f_equal.
  - rewrite Z.add_comm, Z.mod_add by lia. apply Z.mod_small. lia.
  - rewrite Z.div_add_l by lia. rewrite (Z.div_small x w) by lia. lia.
Qed.

Lemma indexToCoord_range (w h i : Z) :
  0 <= w → 0 <= i < w * h →
  0 <= (indexToCoord w i).1 < w ∧ 0 <= (indexToCoord w i).2 < h.
Proof.
  intros Hw Hi.
  assert (0 < w) by (destruct (Z.eq_dec w 0) as [->|]; lia).
  rewrite indexToCoord_nonneg by lia. simpl.
  pose proof (Z.mod_pos_bound i w). pose proof (Z.div_mod i w).
  assert (0 <= i / w) by (apply Z.div_pos; lia).
  split; [lia|]. split; [done|].
  apply Z.div_lt_upper_bound; lia.
Qed.

Lemma coordToIndex_indexToCoord (w i : Z) :
  0 < w → 0 <= i →
  coordToIndex w (indexToCoord w i).1 (indexToCoord w i).2 = i.
Proof.
  intros Hw Hi. rewrite indexToCoord_nonneg by lia.
  unfold coordToIndex. simpl. pose proof (Z.div_mod i w). lia.
Qed.

(** In a grid of at most [2 ^ 53] tiles the index of a position in bounds is
    computed without rounding and lies in the grid. *)
Lemma grid_index_exact (w h x y : Z) :
  w * h <= 2 ^ 53 → 0 <= x < w → 0 <= y < h →
  coordToIndex_double w x y = coordToIndex w x y ∧
  0 <= coordToIndex w x y < w * h.
Proof.
  intros Hsize Hx Hy.
  assert (Hrange : 0 <= y * w ∧ 0 <= y * w + x < w * h) by nia.
  split; [|unfold coordToIndex; lia].
  apply coordToIndex_double_exact; rewrite Z.abs_eq; lia.
Qed.

(** In such a grid the position of an index is computed without rounding. *)
Lemma grid_position_exact (w h i : Z) :
  0 <= w → w * h <= 2 ^ 53 → 0 <= i < w * h →
  indexToCoord_double w i = indexToCoord w i.
Proof.
  intros Hw Hsize Hi. apply indexToCoord_double_exact; [|lia].
  destruct (Z.eq_dec w 0) as [->|]; lia.
Qed.

(** C3, as the class has it. In a grid of non-negative width and at most
    [2 ^ 53] tiles the class computes indices and positions without rounding,
    the index of every position in bounds converts back to the position, and
    the position of every index of the grid converts back to the index. *)
Theorem coord_index_roundtrip (w h : Z) :
  0 <= w → w * h <= 2 ^ 53 →
  (∀ x y, 0 <= x < w → 0 <= y < h →
     coordToIndex_double w x y = coordToIndex w x y ∧
     indexToCoord_double w (coordToIndex_double w x y) = (x, y)) ∧
  (∀ i, 0 <= i < w * h →
     indexToCoord_double w i = indexToCoord w i ∧
     coordToIndex_double w (indexToCoord_double w i).1
       (indexToCoord_double w i).2 = i).
Proof.
  intros Hw Hsize. split.
  - intros x y Hx Hy.
    destruct (grid_index_exact w h x y Hsize Hx Hy) as [Hexact Hin].
    split; [done|]. rewrite Hexact.
    rewrite (grid_position_exact w h) by done.
    apply indexToCoord_coordToIndex; lia.
  - intros i Hi.
    pose proof (grid_position_exact w h i Hw Hsize Hi) as Hexact.
    split; [done|]. rewrite Hexact.
    destruct (indexToCoord_range w h i Hw Hi) as [Hx Hy].
    rewrite (proj1 (grid_index_exact w h _ _ Hsize Hx Hy)).
    apply coordToIndex_indexToCoord; [|lia].
    destruct (Z.eq_dec w 0) as [->|]; lia.
Qed.

Lemma coord_index_roundtrip_witness :
  indexToCoord_double 4 (coordToIndex_double 4 3 2) = (3, 2) ∧
  coordToIndex_double 4 (indexToCoord_double 4 11).1
    (indexToCoord_double 4 11).2 = 11.
Proof.
  pose proof (coord_index_roundtrip 4 3) as [Hpos Hidx]; [lia|lia|].
  split.
  - apply Hpos; lia.
  - apply Hidx; lia.
Defined.

(** Where the claim as first stated fails. With width -4 and height -3 the
    index 5 lies below width times height and converts back to 9. With width
    and height 94906267 the position (1, 94906266) is in bounds; its index
    is rounded to the index of (2, 94906266), which is what it converts back
    to. *)
Lemma coord_index_roundtrip_fails :
  (0 <= 5 < -4 * -3 ∧
   coordToIndex (-4) (indexToCoord (-4) 5).1 (indexToCoord (-4) 5).2 = 9 ∧
   coordToIndex_double (-4) (indexToCoord_double (-4) 5).1
     (indexToCoord_double (-4) 5).2 = 9) ∧
  (0 <= 1 < 94906267 ∧ 0 <= 94906266 < 94906267 ∧
   coordToIndex_double 94906267 1 94906266 = 9007199420969024 ∧
   coordToIndex_double 94906267 2 94906266 = 9007199420969024 ∧
   indexToCoord_double 94906267 (coordToIndex_double 94906267 1 94906266)
   = (2, 94906266)).
Proof.
  split.
  - split; [lia|]. split; reflexivity.
  - split; [lia|]. split; [lia|]. repeat split; reflexivity.
Qed.

(** ** Bounds and collisions *)

Lemma isOutOfBounds_true {Areas} (this : Map Areas) x y :
  isOutOfBounds this x y = true ↔
  x < 0 ∨ width this <= x ∨ y < 0 ∨ height this <= y.
Proof.
  unfold isOutOfBounds.
  rewrite !orb_true_iff, !Z.ltb_lt, !Z.leb_le. tauto.
Qed.

Lemma cell_falsy_true (c : option Tile) :
  cell_falsy c = true ↔ c = None ∨ c = Some (Single 0).
Proof.
  destruct c as [[n|l]|]; simpl; unfold truthy_num.
  - rewrite negb_involutive, Z.eqb_eq. split.
    + intros ->. by right.
    + intros [|]; congruence.
  - split; [done|]. intros [|]; congruence.
  - split; [by left|done].
Qed.

Lemma isCollisionIndex_true {Areas} (this : Map Areas) index :
  isCollisionIndex this index = true ↔ index ∈ collisions this.
Proof. unfold isCollisionIndex, includes. apply bool_decide_eq_true. Qed.

(** C4. [isOutOfBounds] is true exactly when a coordinate is negative or not
    below the width, respectively the height; [isColliding] is true exactly
    when the position is out of bounds, or the data cell at its index is
    absent or 0, or the index is in the collision array. So every position out
    of range and every empty cell collides whatever the collision array holds,
    and a position in bounds with a non-empty cell outside the collision array
    does not collide. *)
Theorem isColliding_spec {Areas} (this : Map Areas) (x y : Z) :
  let index := y * width this + x in
  let cell := array_get (data this) index in
  let out := x < 0 ∨ width this <= x ∨ y < 0 ∨ height this <= y in
  let empty := cell = None ∨ cell = Some (Single 0) in
  (isOutOfBounds this x y = true ↔ out) ∧
  (isColliding this x y = true
   ↔ out ∨ empty ∨ index ∈ collisions this) ∧
  (out → isColliding this x y = true) ∧
  (empty → isColliding this x y = true) ∧
  (¬ out → ¬ empty → index ∉ collisions this →
   isColliding this x y = false).
Proof.
  intros index cell out empty.
  assert (Hcol : isColliding this x y = true
                 ↔ out ∨ empty ∨ index ∈ collisions this).
  { unfold isColliding. fold (coordToIndex (width this) x y).
    destruct (isOutOfBounds this x y) eqn:Hout.
    - apply isOutOfBounds_true in Hout. subst out. tauto.
    - assert (¬ out) by (subst out; rewrite <- isOutOfBounds_true; congruence).
      rewrite orb_true_iff, cell_falsy_true, isCollisionIndex_true.
      subst empty cell index. unfold coordToIndex. tauto. }
  split; [apply isOutOfBounds_true|].
  split; [done|].
  split; [tauto|]. split; [tauto|].
  intros ? ? ?. apply not_true_is_false. rewrite Hcol. tauto.
Qed.

Lemma isColliding_spec_witness :
  isColliding sampleMap (-1) 0 = true ∧
  isColliding sampleMap 1 0 = true ∧
  isColliding sampleMap 3 0 = false.
Proof.
  pose proof (isColliding_spec sampleMap (-1) 0) as (_ & _ & Hout & _).
  pose proof (isColliding_spec sampleMap 1 0) as (_ & _ & _ & Hempty & _).
  pose proof (isColliding_spec sampleMap 3 0) as (_ & _ & _ & _ & Hfree).
  split; [|split].
  - apply Hout. left. lia.
  - apply Hempty. right. reflexivity.
  - apply Hfree.
    + simpl. lia.
    + intros [Hc|Hc]; vm_compute in Hc; discriminate.
    + simpl. rewrite !elem_of_cons, elem_of_nil. lia.
Defined.

(** ** The door table *)

(** C10. For every position and door table, [isDoor] is true exactly when
    [getDoor] returns a door: both read the table at the index of the
    position, so [getDoor] returns none exactly when [isDoor] is false. *)
Theorem isDoor_iff_getDoor {Areas} (this : Map Areas) (x y : Z) :
  (isDoor this x y = true ↔ ∃ door, getDoor this x y = Some door) ∧
  (isDoor this x y = false ↔ getDoor this x y = None) ∧
  getDoor this x y = doors this !! coordToIndex (width this) x y.
Proof.
  unfold isDoor, getDoor. split; [|split; [|done]].
  - apply bool_decide_eq_true.
  - rewrite bool_decide_eq_false. rewrite eq_None_not_Some. done.
Qed.

(** ** Iterating a cell: objects and cursors *)

Lemma forEachTile_tileIds {S} (data : Tile) (callback : Z → S → S) (s : S) :
  forEachTile data callback s
  = foldl (λ s tileId, callback tileId s) s (tileIds data).
Proof. by destruct data. Qed.

Lemma forEachTile_visits (data : Tile) :
  forEachTile data (λ tileId (visited : list Z), visited ++ [tileId]) []
  = tileIds data.
Proof.
  rewrite forEachTile_tileIds.
  assert (Hgen : ∀ l acc,
    foldl (λ (visited : list Z) tileId, visited ++ [tileId]) acc l
    = acc ++ l).
  { induction l as [|t l IH]; intros acc; simpl.
    - by rewrite app_nil_r.
    - by rewrite IH, <- app_assoc. }
  apply Hgen.
Qed.

Lemma foldl_isObject (objs l : list Z) (b : bool) :
  foldl (λ isObject tileId, if includes objs tileId then true else isObject)
    b l
  = b || existsb (includes objs) l.
Proof.
  revert b. induction l as [|t l IH]; intros b; simpl.
  - by rewrite orb_false_r.
  - rewrite IH. by destruct (includes objs t), b.
Qed.

(** C7. [forEachTile] meets every identifier of a cell once, in order, and
    [isObject] is true exactly when one of them is in the objects array. With
    object identifier 7 alone, a cell [3,7,9] is an object and a cell [3,9] is
    not. *)
Theorem isObject_spec {Areas} (this : Map Areas) (data : Tile) :
  forEachTile data (λ tileId (visited : list Z), visited ++ [tileId]) []
  = tileIds data ∧
  (isObject this data = true
   ↔ ∃ tileId, tileId ∈ tileIds data ∧ tileId ∈ objects this) ∧
  (objects this = [7] →
   isObject this (Stack [3; 7; 9]) = true ∧
   isObject this (Stack [3; 9]) = false).
Proof.
  split; [apply forEachTile_visits|]. split.
  - unfold isObject. rewrite forEachTile_tileIds, foldl_isObject. simpl.
    rewrite existsb_exists. unfold includes.
    setoid_rewrite bool_decide_eq_true. setoid_rewrite <- list_elem_of_In.
    done.
  - intros Hobj. unfold isObject. rewrite Hobj. by vm_compute.
Qed.

Lemma isObject_spec_witness :
  isObject sampleMap (Stack [3; 7; 9]) = true ∧
  isObject sampleMap (Stack [3; 9]) = false.
Proof.
  apply (isObject_spec sampleMap (Single 0)). reflexivity.
Defined.

Lemma foldl_cursor_none (cs : gmap Z string) (l : list Z) (cursor : string) :
  Forall (λ u, cs !! u = None) l →
  foldl (λ cursor tileId,
           match cs !! tileId with Some name => name | None => cursor end)
    cursor l = cursor.
Proof.
  intros Hl. revert cursor.
  induction Hl as [|u l Hu _ IH]; intros cursor; simpl; [done|].
  by rewrite Hu, IH.
Qed.

(** Either some identifier of the list is the last one with a cursor, or none
    has one. *)
Lemma last_registered (cs : gmap Z string) (l : list Z) :
  (∃ before t after name,
     l = before ++ t :: after ∧ cs !! t = Some name ∧
     Forall (λ u, cs !! u = None) after) ∨
  Forall (λ u, cs !! u = None) l.
Proof.
  induction l as [|t l IH]; [by right|].
  destruct IH as [(before & u & after & name & -> & Hu & Hafter)|Hnone].
  - left. by exists (t :: before), u, after, name.
  - destruct (cs !! t) as [name|] eqn:Ht.
    + left. by exists [], t, l, name.
    + right. by constructor.
Qed.

(** C8. [getCursor] returns the cursor registered for the last identifier of
    the cell, in iteration order, that has one, and the empty string when no
    identifier of the cell has one; one of the two always applies. *)
Theorem getCursor_spec {Areas} (this : Map Areas) (data : Tile) :
  let unregistered := λ u, cursors this !! u = None in
  (∀ before t after name,
     tileIds data = before ++ t :: after →
     cursors this !! t = Some name →
     Forall unregistered after →
     getCursor this data = name) ∧
  (Forall unregistered (tileIds data) → getCursor this data = "") ∧
  ((∃ t, t ∈ tileIds data ∧
         cursors this !! t = Some (getCursor this data)) ∨
   (Forall unregistered (tileIds data) ∧ getCursor this data = "")).
Proof.
  intros unregistered.
  assert (Hlast : ∀ before t after name,
    tileIds data = before ++ t :: after →
    cursors this !! t = Some name →
    Forall unregistered after →
    getCursor this data = name).
  { intros before t after name Hsplit Ht Hafter.
    unfold getCursor. rewrite forEachTile_tileIds, Hsplit, foldl_app. simpl.
    rewrite Ht. by apply foldl_cursor_none. }
  assert (Hnone : Forall unregistered (tileIds data) →
                  getCursor this data = "").
  { intros Hall. unfold getCursor. rewrite forEachTile_tileIds.
    by apply foldl_cursor_none. }
  split; [done|]. split; [done|].
  destruct (last_registered (cursors this) (tileIds data))
    as [(before & t & after & name & Hsplit & Ht & Hafter)|Hall].
  - left. exists t. split.
    + rewrite Hsplit. set_solver.
    + by rewrite (Hlast before t after name).
  - right. auto.
Qed.

Lemma getCursor_spec_witness :
  getCursor sampleMap (Stack [3; 7; 9; 5]) = "talk" ∧
  getCursor sampleMap (Stack [7; 5]) = "".
Proof.
  pose proof (getCursor_spec sampleMap (Stack [3; 7; 9; 5])) as (Hlast & _).
  pose proof (getCursor_spec sampleMap (Stack [7; 5])) as (_ & Hnone & _).
  split.
  - apply (Hlast [3; 7] 9 [5] "talk"); [reflexivity|reflexivity|].
    repeat constructor.
  - apply Hnone. repeat constructor.
Defined.

(** ** Tile data for the regions *)

Lemma foldl_push (l : list Z) (acc : list TileEntry) :
  foldl
    (λ parsedData tileId,
       match parsedData with
       | RArr l =>
         RArr (l ++ [if isFlipped tileId then TRot (getFlippedTile tileId)
                     else TNum tileId])
       | other => other
       end)
    (RArr acc) l
  = RArr (acc ++ map decodeEntry l).
Proof.
  revert acc. induction l as [|t l IH]; intros acc; simpl.
  - by rewrite app_nil_r.
  - rewrite IH, <- app_assoc. done.
Qed.

(** C6. [getTileData] returns the empty array when the cell at the index is
    absent or 0; otherwise a scalar cell becomes its decoded entry and an
    array cell the array of its decoded entries in the same order, where an
    identifier above the diagonal flag is decoded by [getFlippedTile] and any
    other is kept as the number it is. A 32-bit identifier with no flag bit
    set is kept as that number. *)
Theorem getTileData_spec {Areas} (this : Map Areas) (index : Z) :
  getTileData this index =
    match array_get (data this) index with
    | None => RArr []
    | Some (Single n) => if n =? 0 then RArr [] else RTile (decodeEntry n)
    | Some (Stack l) => RArr (map decodeEntry l)
    end ∧
  (∀ tileId, decodeEntry tileId =
     if DIAGONAL_FLAG <? tileId then TRot (getFlippedTile tileId)
     else TNum tileId) ∧
  (∀ tileId, 0 <= tileId < 2 ^ 32 → Z.land tileId ALL_FLAGS = 0 →
     decodeEntry tileId = TNum tileId).
Proof.
  split; [|split].
  - unfold getTileData.
    destruct (array_get (data this) index) as [[n|l]|]; simpl; [|..|done].
    + unfold truthy_num. rewrite negb_involutive.
      destruct (n =? 0); [done|]. done.
    + apply (foldl_push l []).
  - done.
  - intros tileId Hrange Hnone. unfold decodeEntry.
    pose proof (no_flags_below_diagonal tileId Hrange Hnone).
    destruct (Z.ltb_spec DIAGONAL_FLAG tileId); [lia|done].
Qed.

Lemma getTileData_spec_witness :
  getTileData sampleMap 2 =
    RArr [TNum 3; TRot (mkRotatedTile 6 true false false)] ∧
  getTileData sampleMap 3 = RTile (TRot (mkRotatedTile 1 false true true)) ∧
  getTileData sampleMap 1 = RArr [] ∧
  getTileData sampleMap 0 = RTile (TNum 5) ∧
  decodeEntry 5 = TNum 5.
Proof.
  pose proof (getTileData_spec sampleMap 0) as (_ & _ & Hkeep).
  split; [reflexivity|]. split; [reflexivity|]. split; [reflexivity|].
  split; [reflexivity|]. apply Hkeep; [lia|reflexivity].
Defined.

(** ** Area groups *)

(** The group stored under a key is the dataset group of that key, built by
    the constructor the index has for that key. *)
Lemma loadAreas_lookup {Areas}
    (AreasIndex : gmap string (list ProcessedArea → Areas))
    (rawAreas : gmap string (list ProcessedArea)) (key : string) :
  loadAreas AreasIndex rawAreas !! key =
    match rawAreas !! key, AreasIndex !! key with
    | Some area, Some construct => Some (construct area)
    | _, _ => None
    end.
Proof.
  unfold loadAreas.
  apply (map_fold_weak_ind
    (λ acc raw, acc !! key =
       match raw !! key, AreasIndex !! key with
       | Some area, Some construct => Some (construct area)
       | _, _ => None
       end)).
  - by rewrite !lookup_empty.
  - intros k area raw acc Hfresh IH.
    destruct (decide (k = key)) as [->|Hne].
    + rewrite lookup_insert_eq.
      destruct (AreasIndex !! key) as [construct|] eqn:Hidx.
      * by rewrite lookup_insert_eq.
      * rewrite IH, Hfresh. done.
    + rewrite (lookup_insert_ne raw) by done.
      destruct (AreasIndex !! k); [|done].
      by rewrite lookup_insert_ne.
Qed.

(** C9, as the class has it. [getChestAreas] returns the group that
    [loadAreas] stored under the key [chests]: the dataset group of the key
    [chests] built by the constructor the index has for [chests], and nothing
    when the dataset or the index lacks that key. The dataset group under the
    key [chest] is kept as the raw list [chest] of the map and is not what
    [getChestAreas] returns. *)
Theorem getChestAreas_spec {Areas}
    (AreasIndex : gmap string (list ProcessedArea → Areas))
    (map : ProcessedMap) :
  let this := new_Map AreasIndex map in
  getChestAreas this =
    match pm_areas map !! "chests", AreasIndex !! "chests" with
    | Some area, Some construct => Some (construct area)
    | _, _ => None
    end ∧
  (pm_areas map !! "chests" = None → getChestAreas this = None) ∧
  chest this = default [] (pm_areas map !! "chest").
Proof.
  intros this.
  assert (Hget : getChestAreas this =
    match pm_areas map !! "chests", AreasIndex !! "chests" with
    | Some area, Some construct => Some (construct area)
    | _, _ => None
    end) by apply loadAreas_lookup.
  split; [done|]. split; [|done].
  intros Hnone. by rewrite Hget, Hnone.
Qed.

Lemma getChestAreas_spec_witness :
  getChestAreas (new_Map sampleIndex chestsMap) = Some [chestArea] ∧
  getChestAreas (new_Map sampleIndex chestOnlyMap) = None.
Proof.
  split.
  - rewrite (proj1 (getChestAreas_spec sampleIndex chestsMap)). reflexivity.
  - apply (getChestAreas_spec sampleIndex chestOnlyMap). reflexivity.
Defined.

(** A dataset with a chest group under the key [chest], read through an index
    that knows that key: the group is stored under [chest], and
    [getChestAreas] returns nothing. *)
Lemma getChestAreas_chest_key_absent :
  pm_areas chestOnlyMap !! "chest" = Some [chestArea] ∧
  areas (new_Map sampleIndex chestOnlyMap) !! "chest" = Some [chestArea] ∧
  getChestAreas (new_Map sampleIndex chestOnlyMap) = None.
Proof. by vm_compute. Qed.

(** ** Door linking *)

Lemma find_split {A} (f : A → bool) (l : list A) (x : A) :
  List.find f l = Some x ↔
  ∃ before after,
    l = before ++ x :: after ∧ f x = true ∧
    Forall (λ y, f y = false) before.
Proof.
  split.
  - induction l as [|a l IH]; simpl; [done|].
    destruct (f a) eqn:Ha.
    + intros [= ->]. by exists [], l.
    + intros Hfind. destruct (IH Hfind) as (before & after & -> & Hx & Hb).
      exists (a :: before), after. auto.
  - intros (before & after & -> & Hx & Hb).
    induction Hb as [|y before Hy _ IH]; simpl.
    + by rewrite Hx.
    + by rewrite Hy.
Qed.

Lemma first_with_id_find (rawDoors : list ProcessedArea) (i : Z)
    (dest : ProcessedArea) :
  List.find (λ cloneDoor, i =? a_id cloneDoor) rawDoors = Some dest
  ↔ first_with_id rawDoors i dest.
Proof.
  rewrite find_split. unfold first_with_id.
  split; intros (before & after & -> & Hid & Hb); exists before, after;
    (split; [done|]); split.
  - by apply Z.eqb_eq in Hid.
  - eapply Forall_impl; [exact Hb|]. simpl. intros c Hc.
    apply Z.eqb_neq in Hc. congruence.
  - apply Z.eqb_eq. done.
  - eapply Forall_impl; [exact Hb|]. simpl. intros c Hc.
    apply Z.eqb_neq. congruence.
Qed.

(** The first door with a given id is unique. *)
Lemma first_with_id_unique (rawDoors : list ProcessedArea) (i : Z)
    (dest dest' : ProcessedArea) :
  first_with_id rawDoors i dest → first_with_id rawDoors i dest' →
  dest = dest'.
Proof.
  rewrite <- !first_with_id_find. congruence.
Qed.

Lemma or_else_text (o : option string) (d : string) :
  or_else truthy_str o d = text_or o d.
Proof. by destruct o as [[|]|]. Qed.

Lemma or_else_stage (o : option Z) : or_else truthy_num o 0 = default 0 o.
Proof.
  destruct o as [n|]; simpl; [|done].
  unfold truthy_num. by destruct (Z.eqb_spec n 0).
Qed.

(** What a raw door contributes, in the words of the specification. *)
Lemma doorEntry_Some (w : Z) (clone : list ProcessedArea)
    (door : ProcessedArea) (k : Z) (e : ProcessedDoor) :
  doorEntry w clone door = Some (k, e) ↔
  ∃ dest, resolves_to clone door dest ∧
          k = coordToIndex w (a_x door) (a_y door) ∧
          e = linkedEntry door dest.
Proof.
  unfold doorEntry, linkDoor, resolves_to.
  destruct (a_destination door) as [i|] eqn:Hdest; cbn [ls_doors].
  2: { rewrite lookup_empty. split; [done|].
       by intros (dest & (i & ? & _) & _). }
  unfold truthy_num. rewrite negb_involutive.
  destruct (Z.eqb_spec i 0) as [->|Hnz]; cbn [ls_doors].
  { rewrite lookup_empty. split; [done|].
    intros (dest & (i & [= <-] & Hi & _) & _). done. }
  destruct (List.find _ clone) as [destination|] eqn:Hfind; cbn [ls_doors].
  - apply first_with_id_find in Hfind.
    rewrite lookup_insert_eq.
    rewrite !or_else_text, or_else_stage.
    fold (linkedEntry door destination).
    split.
    + intros [= <- <-]. exists destination. split; [by exists i|done].
    + intros (dest & (j & [= <-] & _ & Hfirst) & -> & ->).
      by rewrite (first_with_id_unique clone i dest destination).
  - rewrite lookup_empty. split; [done|].
    intros (dest & (j & [= <-] & _ & Hfirst) & _).
    apply first_with_id_find in Hfirst. congruence.
Qed.

(** One step of the loop, through what the door contributes; the logger
    output is never touched. *)
Lemma linkDoor_doors (w : Z) (clone : list ProcessedArea) (st : LinkState)
    (door : ProcessedArea) :
  ls_doors (linkDoor w clone st door) =
    match doorEntry w clone door with
    | Some (k, e) => <[k := e]> (ls_doors st)
    | None => ls_doors st
    end.
Proof.
  unfold doorEntry, linkDoor.
  destruct (a_destination door) as [i|]; cbn [ls_doors];
    [|by rewrite lookup_empty].
  destruct (negb (truthy_num i)); cbn [ls_doors]; [by rewrite lookup_empty|].
  destruct (List.find _ clone); cbn [ls_doors]; [|by rewrite lookup_empty].
  by rewrite lookup_insert_eq.
Qed.

Lemma linkDoor_log (w : Z) (clone : list ProcessedArea) (st : LinkState)
    (door : ProcessedArea) :
  ls_log (linkDoor w clone st door) = ls_log st.
Proof.
  unfold linkDoor.
  destruct (a_destination door) as [i|]; [|done].
  destruct (negb (truthy_num i)); [done|].
  by destruct (List.find _ clone).
Qed.

Lemma foldl_linkDoor_log (w : Z) (clone l : list ProcessedArea)
    (st : LinkState) :
  ls_log (foldl (linkDoor w clone) st l) = ls_log st.
Proof.
  revert st. induction l as [|door l IH]; intros st; simpl; [done|].
  by rewrite IH, linkDoor_log.
Qed.

(** The table after the loop: the entry under a key comes from the last door
    of the list that contributes under that key, or from the initial table
    when no door does. *)
Lemma foldl_linkDoor_lookup (w : Z) (clone l : list ProcessedArea)
    (st : LinkState) (k : Z) (e : ProcessedDoor) :
  let silent := λ d, ∀ e', doorEntry w clone d ≠ Some (k, e') in
  ls_doors (foldl (linkDoor w clone) st l) !! k = Some e ↔
  (∃ before door after,
     l = before ++ door :: after ∧ doorEntry w clone door = Some (k, e) ∧
     Forall silent after) ∨
  (Forall silent l ∧ ls_doors st !! k = Some e).
Proof.
  intros silent. revert st.
  induction l as [|door l IH]; intros st; simpl.
  { split.
    - intros Hst. right. by split; [constructor|].
    - intros [(before & door & after & Hnil & _)|[_ Hst]]; [|done].
      by destruct before. }
  rewrite IH, linkDoor_doors. split.
  - intros [(before & d & after & -> & Hd & Hafter)|[Hall Hst]].
    + left. by exists (door :: before), d, after.
    + destruct (doorEntry w clone door) as [[k0 e0]|] eqn:Hdoor.
      * destruct (decide (k0 = k)) as [->|Hne].
        -- rewrite lookup_insert_eq in Hst. injection Hst as ->.
           left. by exists [], door, l.
        -- rewrite lookup_insert_ne in Hst by done.
           right. split; [|done]. constructor; [|done].
           intros e'. congruence.
      * right. split; [|done]. constructor; [|done]. intros e'. congruence.
  - intros [(before & d & after & Hsplit & Hd & Hafter)|[Hall Hst]].
    + destruct before as [|b before]; simpl in Hsplit.
      * injection Hsplit as -> ->. right. split; [done|].
        by rewrite Hd, lookup_insert_eq.
      * injection Hsplit as -> ->. left. by exists before, d, after.
    + inversion Hall as [|? ? Hdoor Hl]; subst. right. split; [done|].
      destruct (doorEntry w clone door) as [[k0 e0]|] eqn:Hentry; [|done].
      rewrite lookup_insert_ne; [done|].
      intros ->. by apply (Hdoor e0).
Qed.

Lemma silent_unresolved (w : Z) (clone : list ProcessedArea)
    (door : ProcessedArea) (k : Z) :
  (∀ e', doorEntry w clone door ≠ Some (k, e')) ↔
  (coordToIndex w (a_x door) (a_y door) = k →
   ∀ dest, ¬ resolves_to clone door dest).
Proof.
  split.
  - intros Hsilent Hk dest Hres.
    apply (Hsilent (linkedEntry door dest)).
    apply doorEntry_Some. by exists dest.
  - intros Hun e' He'. apply doorEntry_Some in He' as (dest & Hres & -> & _).
    by apply (Hun eq_refl dest).
Qed.

(** The table [loadDoors] builds, key by key, in the words of the
    specification. *)
Lemma loadDoors_lookup (w : Z) (rawDoors : list ProcessedArea)
    (log0 : list string) (k : Z) (e : ProcessedDoor) :
  ls_doors (loadDoors w rawDoors log0) !! k = Some e ↔
  ∃ before door after dest,
    rawDoors = before ++ door :: after ∧
    resolves_to rawDoors door dest ∧
    coordToIndex w (a_x door) (a_y door) = k ∧
    e = linkedEntry door dest ∧
    Forall (λ later, coordToIndex w (a_x later) (a_y later) = k →
                     ∀ dest', ¬ resolves_to rawDoors later dest') after.
Proof.
  unfold loadDoors. rewrite foldl_linkDoor_lookup. cbn [ls_doors].
  rewrite lookup_empty. split.
  - intros [(before & door & after & Hsplit & Hd & Hafter)|[_ ?]]; [|done].
    apply doorEntry_Some in Hd as (dest & Hres & -> & ->).
    exists before, door, after, dest. repeat (split; [done|]).
    eapply Forall_impl; [exact Hafter|]. intros later. apply silent_unresolved.
  - intros (before & door & after & dest & Hsplit & Hres & <- & -> & Hafter).
    left. exists before, door, after. split; [done|]. split.
    + apply doorEntry_Some. by exists dest.
    + eapply Forall_impl; [exact Hafter|]. intros later.
      apply silent_unresolved.
Qed.

(** The keys of the table after the loop. *)
Lemma foldl_linkDoor_dom (w : Z) (clone l : list ProcessedArea)
    (st : LinkState) (k : Z) :
  is_Some (ls_doors (foldl (linkDoor w clone) st l) !! k) ↔
  (∃ door dest, door ∈ l ∧ resolves_to clone door dest ∧
                coordToIndex w (a_x door) (a_y door) = k) ∨
  is_Some (ls_doors st !! k).
Proof.
  revert st. induction l as [|door l IH]; intros st; simpl.
  { split; [by right|]. intros [(door & dest & Hin & _)|]; [|done].
    by apply elem_of_nil in Hin. }
  rewrite IH, linkDoor_doors. split.
  - intros [(d & dest & Hin & Hres & Hk)|Hst].
    + left. exists d, dest. split; [by right|done].
    + destruct (doorEntry w clone door) as [[k0 e0]|] eqn:Hdoor; [|by right].
      destruct (decide (k0 = k)) as [->|Hne].
      * apply doorEntry_Some in Hdoor as (dest & Hres & Hk & _).
        left. exists door, dest. split; [by left|done].
      * rewrite lookup_insert_ne in Hst by done. by right.
  - intros [(d & dest & Hin & Hres & Hk)|Hst].
    + apply elem_of_cons in Hin as [->|Hin].
      * right.
        assert (Hentry : doorEntry w clone door
                         = Some (k, linkedEntry door dest))
          by (apply doorEntry_Some; by exists dest).
        rewrite Hentry, lookup_insert_eq. by eexists.
      * left. by exists d, dest.
    + right. destruct (doorEntry w clone door) as [[k0 e0]|]; [|done].
      destruct (decide (k0 = k)) as [->|Hne].
      * rewrite lookup_insert_eq. by eexists.
      * by rewrite lookup_insert_ne.
Qed.

(** A door that contributes nothing leaves the state as it is. *)
Lemma linkDoor_skip (w : Z) (clone : list ProcessedArea) (st : LinkState)
    (door : ProcessedArea) :
  doorEntry w clone door = None → linkDoor w clone st door = st.
Proof.
  unfold doorEntry, linkDoor.
  destruct (a_destination door) as [i|]; [|done].
  destruct (negb (truthy_num i)); [done|].
  destruct (List.find _ clone); [|done].
  cbn [ls_doors]. by rewrite lookup_insert_eq.
Qed.

Lemma unmatched_unresolved (clone : list ProcessedArea)
    (door : ProcessedArea) (i : Z) :
  a_destination door = Some i → Forall (λ c, a_id c ≠ i) clone →
  ∀ dest, ¬ resolves_to clone door dest.
Proof.
  intros Hdest Hall dest (j & Hj & _ & before & after & -> & Hid & _).
  assert (j = i) as -> by congruence.
  rewrite Forall_app, Forall_cons in Hall. by destruct Hall as (_ & ? & _).
Qed.

Lemma unresolved_doorEntry (w : Z) (clone : list ProcessedArea)
    (door : ProcessedArea) :
  (∀ dest, ¬ resolves_to clone door dest) → doorEntry w clone door = None.
Proof.
  intros Hun. destruct (doorEntry w clone door) as [[k e]|] eqn:Hd; [|done].
  apply doorEntry_Some in Hd as (dest & Hres & _). by destruct (Hun dest).
Qed.




(** C5, as the class has it. A raw door whose declared destination identifier
    matches no raw door's own id is dropped without a word to the logger: the
    state after linking is the one the remaining doors produce, so the table
    has an entry exactly under the tile indices of the other doors that
    resolve, and none under the tile index of the dropped door unless another
    door that resolves stands on it. One unresolved door neither stops the
    loop nor removes an entry. *)
Theorem loadDoors_unresolved (w : Z) (before after : list ProcessedArea)
    (door : ProcessedArea) (i : Z) (log0 : list string) :
  let rawDoors := before ++ door :: after in
  let index := λ door, coordToIndex w (a_x door) (a_y door) in
  a_destination door = Some i →
  Forall (λ c, a_id c ≠ i) rawDoors →
  ls_log (loadDoors w rawDoors log0) = log0 ∧
  loadDoors w rawDoors log0
  = foldl (linkDoor w rawDoors) (mkLinkState ∅ log0) (before ++ after) ∧
  (∀ k, is_Some (ls_doors (loadDoors w rawDoors log0) !! k) ↔
        ∃ other dest, other ∈ before ++ after ∧
                      resolves_to rawDoors other dest ∧ index other = k) ∧
  ((∀ other dest, other ∈ before ++ after →
                  resolves_to rawDoors other dest →
                  index other ≠ index door) →
   ls_doors (loadDoors w rawDoors log0) !! index door = None).
Proof.
  intros rawDoors index Hdest Hnone.
  assert (Hskip : loadDoors w rawDoors log0
    = foldl (linkDoor w rawDoors) (mkLinkState ∅ log0) (before ++ after)).
  { unfold loadDoors. fold rawDoors. unfold rawDoors at 2.
    rewrite !foldl_app. simpl. rewrite linkDoor_skip; [done|].
    apply unresolved_doorEntry. by apply (unmatched_unresolved _ _ i). }
  assert (Hdom : ∀ k, is_Some (ls_doors (loadDoors w rawDoors log0) !! k) ↔
    ∃ other dest, other ∈ before ++ after ∧
                  resolves_to rawDoors other dest ∧ index other = k).
  { intros k. rewrite Hskip, foldl_linkDoor_dom. cbn [ls_doors].
    rewrite lookup_empty. split; [|by left]. intros [?|[? ?]]; done. }
  split; [|split; [done|split; [done|]]].
  - unfold loadDoors. by rewrite foldl_linkDoor_log.
  - intros Hfree. apply eq_None_not_Some. rewrite Hdom.
    intros (other & dest & Hin & Hres & Hk). by apply (Hfree other dest).
Qed.

Lemma loadDoors_unresolved_witness :
  ls_log (loadDoors 10 sharedTileDoors ["boot"]) = ["boot"] ∧
  ls_doors
    (loadDoors 10 (mkArea 1 1 1 (Some 9) None None None None :: sampleDoors)
       [])
  !! coordToIndex 10 1 1 = None.
Proof.
  split.
  - apply (loadDoors_unresolved 10 []
             [mkArea 2 1 1 (Some 2) None None None None]
             (mkArea 1 1 1 (Some 9) None None None None) 9 ["boot"]).
    + reflexivity.
    + repeat constructor; simpl; lia.
  - apply (loadDoors_unresolved 10 [] sampleDoors
             (mkArea 1 1 1 (Some 9) None None None None) 9 []).
    + reflexivity.
    + repeat constructor; simpl; lia.
    + intros other dest Hin _. simpl in Hin. unfold sampleDoors in Hin.
      rewrite !elem_of_cons, elem_of_nil in Hin.
      destruct Hin as [-> | [-> | []]]; vm_compute; discriminate.
Defined.

(** An unresolved door on the tile of a door that resolves: nothing is
    logged, and the table has an entry under the tile index of the
    unresolved door. *)
Lemma loadDoors_unresolved_silent_shared :
  let door := mkArea 1 1 1 (Some 9) None None None None in
  (nth_error sharedTileDoors 0 = Some door ∧
   a_destination door = Some 9 ∧
   List.find (λ c, 9 =? a_id c) sharedTileDoors = None) ∧
  ls_log (loadDoors 10 sharedTileDoors []) = [] ∧
  ls_doors (loadDoors 10 sharedTileDoors [])
  !! coordToIndex 10 (a_x door) (a_y door)
  = Some (mkDoor 1 1 "d" "" "" 0).
Proof. by vm_compute. Qed.

(** * Further properties of the class *)

(** ** Coordinates *)

Lemma coordToIndex_same (w x y x' y' : Z) :
  0 <= x < w → 0 <= x' < w →
  coordToIndex w x y = coordToIndex w x' y' → x = x' ∧ y = y'.
Proof.
  unfold coordToIndex. intros Hx Hx' Heq.
  assert (y = y') as -> by nia.
  split; [lia|done].
Qed.

(** In a grid of at most [2 ^ 53] tiles two positions in bounds with the same
    index are the same position, so distinct tiles never share an index; the
    index is computed without rounding and lies in the grid. *)
Theorem coordToIndex_inj (w h x y x' y' : Z) :
  w * h <= 2 ^ 53 →
  0 <= x < w → 0 <= y < h → 0 <= x' < w → 0 <= y' < h →
  (coordToIndex_double w x y = coordToIndex_double w x' y'
   ↔ x = x' ∧ y = y') ∧
  0 <= coordToIndex_double w x y < w * h.
Proof.
  intros Hsize Hx Hy Hx' Hy'.
  destruct (grid_index_exact w h x y Hsize Hx Hy) as [-> Hin].
  destruct (grid_index_exact w h x' y' Hsize Hx' Hy') as [-> _].
  split; [|done]. split; [by apply coordToIndex_same|].
  by intros [-> ->].
Qed.

Lemma coordToIndex_inj_witness :
  (coordToIndex_double 4 3 2 = coordToIndex_double 4 1 2 ↔ 3 = 1 ∧ 2 = 2) ∧
  0 <= coordToIndex_double 4 3 2 < 4 * 3.
Proof. apply (coordToIndex_inj 4 3 3 2 1 2); lia. Defined.

(** In a grid of non-negative width and at most [2 ^ 53] tiles the position
    of an index of the grid is in bounds, and whether it collides is decided
    by the data cell and the collision array at that very index. *)
Theorem index_in_bounds {Areas} (this : Map Areas) (i : Z) :
  0 <= width this → width this * height this <= 2 ^ 53 →
  0 <= i < width this * height this →
  let position := indexToCoord_double (width this) i in
  isOutOfBounds this position.1 position.2 = false ∧
  isColliding this position.1 position.2
  = cell_falsy (array_get (data this) i) || isCollisionIndex this i.
Proof.
  intros Hw Hsize Hi position. subst position.
  rewrite (grid_position_exact _ _ _ Hw Hsize Hi).
  destruct (indexToCoord_range _ _ _ Hw Hi) as [Hx Hy].
  assert (Hin : isOutOfBounds this (indexToCoord (width this) i).1
                  (indexToCoord (width this) i).2 = false).
  { apply not_true_is_false. rewrite isOutOfBounds_true. lia. }
  split; [done|]. unfold isColliding. rewrite Hin.
  rewrite coordToIndex_indexToCoord; [done| |lia].
  destruct (Z.eq_dec (width this) 0) as [Hz|]; [rewrite Hz in Hi|]; lia.
Qed.

Lemma index_in_bounds_witness :
  isOutOfBounds sampleMap (indexToCoord_double 4 11).1
    (indexToCoord_double 4 11).2 = false.
Proof. apply (index_in_bounds sampleMap 11); simpl; lia. Defined.

(** ** Rotated tiles *)

Lemma ToInt32_wrap (z : Z) : ToInt32 (z mod 2 ^ 32) = ToInt32 z.
Proof.
  unfold ToInt32. f_equal.
  rewrite <- (Z.add_mod_idemp_l z) by lia. done.
Qed.

Lemma getFlippedTile_wrap (raw : Z) :
  getFlippedTile (raw mod 2 ^ 32) = getFlippedTile raw.
Proof. unfold getFlippedTile, js_and. by rewrite ToInt32_wrap. Qed.

(** The flags of an unsigned 32-bit identifier, re-applied onto its low 29
    bits, give the identifier. *)
Lemma reencode_unsigned (raw : Z) :
  0 <= raw < 2 ^ 32 →
  applyFlags (raw mod 2 ^ 29) (2 ^ 31 <=? raw)
    (Z.odd (raw / 2 ^ 30)) (Z.odd (raw / 2 ^ 29)) = raw.
Proof.
  intros Hraw.
  pose proof (Z.mod_pos_bound raw (2 ^ 29) eq_refl) as Hr.
  rewrite applyFlags_add by done.
  pose proof (Z.div_mod raw (2 ^ 29)) as Hsplit.
  assert (Hq : 0 <= raw / 2 ^ 29 < 8)
    by (split; [apply Z.div_pos|apply Z.div_lt_upper_bound]; lia).
  assert (Hhalf : raw / 2 ^ 30 = raw / 2 ^ 29 / 2)
    by (rewrite Z.div_div by lia; done).
  rewrite Hhalf.
  assert (Hcases : raw / 2 ^ 29 = 0 ∨ raw / 2 ^ 29 = 1 ∨ raw / 2 ^ 29 = 2 ∨
                   raw / 2 ^ 29 = 3 ∨ raw / 2 ^ 29 = 4 ∨ raw / 2 ^ 29 = 5 ∨
                   raw / 2 ^ 29 = 6 ∨ raw / 2 ^ 29 = 7) by lia.
  destruct (Z.leb_spec (2 ^ 31) raw);
    destruct Hcases as [Hc|[Hc|[Hc|[Hc|[Hc|[Hc|[Hc|Hc]]]]]]];
    rewrite Hc in *; simpl (Z.odd _); cbv iota; lia.
Qed.

(** The decoder sees a number through its low 32 bits only, whatever the
    number: bits 31, 30 and 29 are the flags, and the base identifier it
    returns is the low 29 bits, so it never carries a flag bit. *)
Theorem getFlippedTile_low_bits (raw : Z) :
  let u := raw mod 2 ^ 32 in
  getFlippedTile raw =
    mkRotatedTile (u mod 2 ^ 29) (2 ^ 31 <=? u)
      (Z.odd (u / 2 ^ 30)) (Z.odd (u / 2 ^ 29)) ∧
  getFlippedTile (raw + 2 ^ 32) = getFlippedTile raw ∧
  0 <= rt_tileId (getFlippedTile raw) < DIAGONAL_FLAG.
Proof.
  intros u.
  pose proof (Z.mod_pos_bound raw (2 ^ 32) eq_refl) as Hu.
  assert (Hdec : getFlippedTile raw =
    mkRotatedTile (u mod 2 ^ 29) (2 ^ 31 <=? u)
      (Z.odd (u / 2 ^ 30)) (Z.odd (u / 2 ^ 29))).
  { rewrite <- getFlippedTile_wrap. by apply getFlippedTile_unsigned. }
  split; [done|]. split.
  - rewrite <- (getFlippedTile_wrap (raw + 2 ^ 32)).
    rewrite <- (getFlippedTile_wrap raw).
    f_equal. rewrite <- (Z.mul_1_l (2 ^ 32)) at 1. by rewrite Z.mod_add.
  - rewrite Hdec. simpl. apply Z.mod_pos_bound. done.
Qed.

(** Decoding any number and re-applying the decoded flags onto the decoded
    base identifier gives the low 32 bits of the number: every unsigned
    32-bit identifier comes back as it was. *)
Theorem getFlippedTile_reencode (raw : Z) :
  let decoded := getFlippedTile raw in
  applyFlags (rt_tileId decoded) (rt_h decoded) (rt_v decoded) (rt_d decoded)
  = raw mod 2 ^ 32 ∧
  (0 <= raw < 2 ^ 32 →
   applyFlags (rt_tileId decoded) (rt_h decoded) (rt_v decoded)
     (rt_d decoded) = raw).
Proof.
  intros decoded.
  pose proof (Z.mod_pos_bound raw (2 ^ 32) eq_refl) as Hu.
  assert (Hre : applyFlags (rt_tileId decoded) (rt_h decoded) (rt_v decoded)
                  (rt_d decoded) = raw mod 2 ^ 32).
  { subst decoded. rewrite <- getFlippedTile_wrap.
    rewrite getFlippedTile_unsigned by done. simpl.
    by apply reencode_unsigned. }
  split; [done|]. intros Hraw. rewrite Hre. by apply Z.mod_small.
Qed.

Lemma getFlippedTile_reencode_witness :
  let decoded := getFlippedTile (2 ^ 31 + 2 ^ 29 + 77) in
  applyFlags (rt_tileId decoded) (rt_h decoded) (rt_v decoded) (rt_d decoded)
  = 2 ^ 31 + 2 ^ 29 + 77.
Proof. apply (getFlippedTile_reencode (2 ^ 31 + 2 ^ 29 + 77)). lia. Defined.

Lemma land_below_flags (raw : Z) :
  0 <= raw < 2 ^ 29 → Z.land raw ALL_FLAGS = 0.
Proof.
  intros Hraw. change ALL_FLAGS with (Z.ones 3 * 2 ^ 29).
  rewrite <- Z.shiftl_mul_pow2 by lia.
  apply Z.bits_inj'. intros i Hi. rewrite Z.land_spec, Z.bits_0.
  destruct (Z.lt_ge_cases i 29).
  - rewrite Z.shiftl_spec_low by done. apply andb_false_r.
  - destruct (Z.eq_dec raw 0) as [->|]; [by rewrite Z.bits_0|].
    rewrite (Z.bits_above_log2 raw i); [done|lia|].
    apply Z.lt_le_trans with 29; [|done]. apply Z.log2_lt_pow2; lia.
Qed.

(** An unsigned 32-bit identifier counts as flipped exactly when it has a
    flag bit set and is not the bare diagonal flag: the identifier that is the
    diagonal flag alone is not above it, and [getTileData] keeps it as a
    number. *)
Theorem isFlipped_flags (raw : Z) :
  0 <= raw < 2 ^ 32 →
  (isFlipped raw = true ↔ Z.land raw ALL_FLAGS ≠ 0 ∧ raw ≠ DIAGONAL_FLAG) ∧
  isFlipped DIAGONAL_FLAG = false ∧
  rt_d (getFlippedTile DIAGONAL_FLAG) = true.
Proof.
  intros Hraw. split; [|by vm_compute].
  unfold isFlipped. rewrite Z.ltb_lt. split.
  - intros Hgt. split; [|lia]. intros Hnone.
    pose proof (no_flags_below_diagonal raw Hraw Hnone). lia.
  - intros [Hflags Hne].
    destruct (Z.lt_ge_cases raw DIAGONAL_FLAG) as [Hlt|]; [|lia].
    destruct Hflags. apply land_below_flags. unfold DIAGONAL_FLAG in Hlt. lia.
Qed.

Lemma isFlipped_flags_witness :
  isFlipped (2 ^ 30 + 5) = true ↔
  Z.land (2 ^ 30 + 5) ALL_FLAGS ≠ 0 ∧ 2 ^ 30 + 5 ≠ DIAGONAL_FLAG.
Proof. apply (isFlipped_flags (2 ^ 30 + 5)). lia. Defined.

(** ** Collisions, doors and plateau levels at the edges *)

(** A map without tile data, or with a width or height that is not positive,
    collides at every position. *)
Theorem isColliding_everywhere {Areas} (this : Map Areas) (x y : Z) :
  data this = [] ∨ width this <= 0 ∨ height this <= 0 →
  isColliding this x y = true.
Proof.
  intros Hdegenerate. unfold isColliding.
  destruct (isOutOfBounds this x y) eqn:Hout; [done|].
  apply not_true_iff_false in Hout. rewrite isOutOfBounds_true in Hout.
  destruct Hdegenerate as [Hdata|Hsize]; [|lia].
  rewrite Hdata. unfold array_get.
  destruct (_ <? 0); [done|]. by rewrite lookup_nil.
Qed.

Lemma isColliding_everywhere_witness :
  isColliding (mkMap unit 4 3 [] [] [] ∅ ∅ [] ∅ []) 1 1 = true.
Proof. apply isColliding_everywhere. by left. Defined.

(** The door and plateau queries check no bounds: while every index stays
    within [2 ^ 53], a column beyond the width reads the next row, where
    [isColliding] reports a collision. *)
Theorem queries_beyond_width {Areas} (this : Map Areas) (plateau : gmap Z Z)
    (x y : Z) :
  0 <= x → 0 <= y → 0 <= width this →
  (y + 2) * width this + x <= 2 ^ 53 →
  getDoor this (x + width this) y = getDoor this x (y + 1) ∧
  isDoor this (x + width this) y = isDoor this x (y + 1) ∧
  getPlateauLevel (width this) plateau (x + width this) y
  = getPlateauLevel (width this) plateau x (y + 1) ∧
  isColliding this (x + width this) y = true.
Proof.
  intros Hx Hy Hw Hsize.
  assert (Hindex : coordToIndex (width this) (x + width this) y
                   = coordToIndex (width this) x (y + 1))
    by (unfold coordToIndex; lia).
  assert (Hdouble : coordToIndex_double (width this) (x + width this) y
                    = coordToIndex_double (width this) x (y + 1)).
  { rewrite !coordToIndex_double_exact; [done|..]; rewrite Z.abs_eq; nia. }
  unfold getDoor, isDoor, getPlateauLevel. rewrite Hindex, Hdouble.
  repeat (split; [done|]).
  unfold isColliding.
  destruct (isOutOfBounds this (x + width this) y) eqn:Hout; [done|].
  apply not_true_iff_false in Hout. rewrite isOutOfBounds_true in Hout. lia.
Qed.

Lemma queries_beyond_width_witness :
  getPlateauLevel 4 {[ 5 := 7 ]} (1 + 4) 0 = getPlateauLevel 4 {[ 5 := 7 ]} 1 1
  ∧ isColliding sampleMap (1 + 4) 0 = true.
Proof.
  pose proof (queries_beyond_width sampleMap {[ 5 := 7 ]} 1 0)
    as (_ & _ & Hlevel & Hcollides); [lia|lia|simpl; lia|simpl; lia|].
  by split.
Defined.

(** In a grid of at most [2 ^ 53] tiles a plateau level stored for a tile is
    the level of that tile, no other tile in bounds sees it, and a tile
    without a stored level is at level 0. *)
Theorem getPlateauLevel_insert (w h : Z) (plateau : gmap Z Z)
    (x y level x' y' : Z) :
  w * h <= 2 ^ 53 →
  0 <= x < w → 0 <= y < h → 0 <= x' < w → 0 <= y' < h →
  getPlateauLevel w (<[coordToIndex_double w x y := level]> plateau) x y
  = level ∧
  ((x', y') ≠ (x, y) →
   getPlateauLevel w (<[coordToIndex_double w x y := level]> plateau) x' y'
   = getPlateauLevel w plateau x' y') ∧
  (plateau !! coordToIndex_double w x' y' = None →
   getPlateauLevel w plateau x' y' = 0).
Proof.
  intros Hsize Hx Hy Hx' Hy'. unfold getPlateauLevel. split; [|split].
  - by rewrite lookup_insert_eq.
  - intros Hne. rewrite lookup_insert_ne; [done|].
    rewrite (proj1 (grid_index_exact w h x y Hsize Hx Hy)).
    rewrite (proj1 (grid_index_exact w h x' y' Hsize Hx' Hy')).
    intros Heq. apply coordToIndex_same in Heq as [-> ->]; done.
  - by intros ->.
Qed.

Lemma getPlateauLevel_insert_witness :
  getPlateauLevel 4 (<[coordToIndex_double 4 1 2 := 3]> ∅) 1 2 = 3 ∧
  getPlateauLevel 4 (<[coordToIndex_double 4 1 2 := 3]> ∅) 2 2 = 0.
Proof.
  pose proof (getPlateauLevel_insert 4 3 ∅ 1 2 3 2 2)
    as (Hset & Hother & Hnone); [lia..|].
  split; [done|]. rewrite Hother by congruence. by apply Hnone.
Defined.

(** ** Invariants of the door table *)

Lemma text_or_nonempty (o : option string) (d : string) :
  d ≠ "" → text_or o d ≠ "".
Proof. intros Hd. by destruct o as [[|]|]. Qed.

Lemma foldl_linkDoor_size (w : Z) (clone l : list ProcessedArea)
    (st : LinkState) :
  (size (ls_doors (foldl (linkDoor w clone) st l))
   ≤ size (ls_doors st) + length l)%nat.
Proof.
  revert st. induction l as [|door l IH]; intros st; simpl; [lia|].
  etrans; [apply IH|]. rewrite linkDoor_doors.
  destruct (doorEntry w clone door) as [[k e]|]; [|lia].
  rewrite map_size_insert. destruct (ls_doors st !! k); simpl; lia.
Qed.

(** Every entry of the door table leads to the position of a raw door of the
    dataset and carries an orientation that is not empty; the key of the entry
    is the tile index of a raw door with a non-zero destination. *)
Theorem loadDoors_entries (w : Z) (rawDoors : list ProcessedArea)
    (log0 : list string) (k : Z) (e : ProcessedDoor) :
  ls_doors (loadDoors w rawDoors log0) !! k = Some e →
  d_orientation e ≠ "" ∧
  (∃ dest, dest ∈ rawDoors ∧ a_id dest ≠ 0 ∧
           d_x e = a_x dest ∧ d_y e = a_y dest) ∧
  (∃ door, door ∈ rawDoors ∧ k = coordToIndex w (a_x door) (a_y door) ∧
           d_quest e = text_or (a_quest door) "" ∧
           d_achievement e = text_or (a_achievement door) "" ∧
           d_stage e = default 0 (a_stage door)).
Proof.
  rewrite loadDoors_lookup.
  intros (before & door & after & dest & Hsplit & Hres & <- & -> & _).
  destruct Hres as (i & Hi & Hnz & c1 & c2 & Hclone & Hid & _).
  split; [by apply text_or_nonempty|]. split.
  - exists dest. split; [rewrite Hclone; set_solver|]. split; [lia|done].
  - exists door. split; [rewrite Hsplit; set_solver|done].
Qed.

Lemma loadDoors_entries_witness :
  d_orientation (mkDoor 10 10 "u" "" "" 0) ≠ "".
Proof.
  apply (loadDoors_entries 20 sampleDoors [] (coordToIndex 20 5 5)
           (mkDoor 10 10 "u" "" "" 0)).
  reflexivity.
Defined.

(** The door table never has more entries than there are raw doors, and
    [loadDoors] writes nothing to the logger, whatever the raw doors are. *)
Theorem loadDoors_size_log (w : Z) (rawDoors : list ProcessedArea)
    (log0 : list string) :
  (size (ls_doors (loadDoors w rawDoors log0)) ≤ length rawDoors)%nat ∧
  ls_log (loadDoors w rawDoors log0) = log0.
Proof.
  unfold loadDoors. split.
  - etrans; [apply foldl_linkDoor_size|]. cbn [ls_doors].
    rewrite map_size_empty. lia.
  - by rewrite foldl_linkDoor_log.
Qed.

(** When no raw door declares a destination other than 0 the door table is
    empty; so it is for an empty door list, and a dataset without a door
    group gives a map without doors. *)
Theorem loadDoors_no_destination (w : Z) (rawDoors : list ProcessedArea)
    (log0 : list string) :
  (Forall (λ door, a_destination door = None ∨ a_destination door = Some 0)
     rawDoors →
   ls_doors (loadDoors w rawDoors log0) = ∅) ∧
  ls_doors (loadDoors w [] log0) = ∅ ∧
  (∀ (Areas : Type) (AreasIndex : gmap string (list ProcessedArea → Areas))
     (map : ProcessedMap) (x y : Z),
     pm_areas map !! "doors" = None →
     isDoor (new_Map AreasIndex map) x y = false ∧
     getDoor (new_Map AreasIndex map) x y = None).
Proof.
  split; [|split; [done|]].
  - intros Hnone. apply map_empty. intros k. apply eq_None_not_Some.
    unfold loadDoors. rewrite foldl_linkDoor_dom. cbn [ls_doors].
    rewrite lookup_empty.
    intros [(door & dest & Hin & (i & Hi & Hnz & _) & _)|[? ?]]; [|done].
    rewrite Forall_forall in Hnone.
    destruct (Hnone door Hin); congruence.
  - intros Areas AreasIndex map x y Hmissing.
    unfold isDoor, getDoor, new_Map. cbn [doors width].
    rewrite Hmissing. cbn [from_option id].
    change (ls_doors (loadDoors (pm_width map) [] [])) with
      (∅ : gmap Z ProcessedDoor).
    rewrite lookup_empty. split; [|done].
    apply bool_decide_eq_false. by intros [? ?].
Qed.

Lemma loadDoors_no_destination_witness :
  ls_doors
    (loadDoors 10 [mkArea 2 10 10 None (Some "u") None None None;
                   mkArea 0 1 1 (Some 0) None None None None] [])
  = ∅ ∧
  isDoor (new_Map sampleIndex chestOnlyMap) 5 5 = false.
Proof.
  pose proof (loadDoors_no_destination 10
                [mkArea 2 10 10 None (Some "u") None None None;
                 mkArea 0 1 1 (Some 0) None None None None] [])
    as (Hnone & _ & Hmissing).
  split.
  - apply Hnone.
    apply Forall_cons_2; [by left|]. apply Forall_cons_2; [by right|].
    apply Forall_nil_2.
  - apply (Hmissing _ sampleIndex chestOnlyMap 5 5). reflexivity.
Defined.

(** ** Cells as stacks *)

Lemma foldl_cursor_registered (cs : gmap Z string) (l : list Z)
    (cursor : string) :
  foldl (λ cursor tileId,
           match cs !! tileId with Some name => name | None => cursor end)
    cursor l
  = if existsb (λ tileId, bool_decide (is_Some (cs !! tileId))) l
    then foldl (λ cursor tileId,
                  match cs !! tileId with
                  | Some name => name
                  | None => cursor
                  end) "" l
    else cursor.
Proof.
  revert cursor. induction l as [|t l IH]; intros cursor; simpl; [done|].
  rewrite IH. rewrite (IH (match cs !! t with Some _ => _ | None => _ end)).
  destruct (existsb _ l); [by rewrite orb_true_r|]. rewrite orb_false_r.
  destruct (cs !! t) as [name|]; [|done].
  rewrite bool_decide_eq_true_2; [done|by eexists].
Qed.

(** A stack put on top of another: the cell is an object when either part
    is, and its cursor is the cursor of the upper part when one of the upper
    identifiers has a cursor, that of the lower part otherwise. A scalar cell
    behaves as the stack of its one identifier, and the empty stack is no
    object and has no cursor. *)
Theorem stack_append {Areas} (this : Map Areas) (lower upper : list Z) :
  isObject this (Stack (lower ++ upper))
  = isObject this (Stack lower) || isObject this (Stack upper) ∧
  getCursor this (Stack (lower ++ upper))
  = (if existsb (λ tileId, bool_decide (is_Some (cursors this !! tileId)))
          upper
     then getCursor this (Stack upper)
     else getCursor this (Stack lower)) ∧
  (∀ n, isObject this (Single n) = isObject this (Stack [n]) ∧
        getCursor this (Single n) = getCursor this (Stack [n])) ∧
  isObject this (Stack []) = false ∧ getCursor this (Stack []) = "".
Proof.
  split; [|split; [|done]].
  - unfold isObject, forEachTile. rewrite !foldl_isObject. simpl.
    apply existsb_app.
  - unfold getCursor, forEachTile. rewrite foldl_app.
    apply foldl_cursor_registered.
Qed.

(** ** Tile data at the edges, and nothing lost in decoding *)

Lemma getTileData_cases {Areas} (this : Map Areas) (index : Z) :
  getTileData this index =
    match array_get (data this) index with
    | None => RArr []
    | Some (Single n) => if n =? 0 then RArr [] else RTile (decodeEntry n)
    | Some (Stack l) => RArr (map decodeEntry l)
    end.
Proof.
  unfold getTileData.
  destruct (array_get (data this) index) as [[n|l]|]; simpl; [|..|done].
  - unfold truthy_num. rewrite negb_involutive. by destruct (n =? 0).
  - apply (foldl_push l []).
Qed.

Lemma entryId_decodeEntry (n : Z) :
  0 <= n < 2 ^ 32 → entryId (decodeEntry n) = n.
Proof.
  intros Hn. unfold decodeEntry.
  destruct (DIAGONAL_FLAG <? n); [|done]. cbn [entryId].
  rewrite getFlippedTile_unsigned by done. cbn [rt_tileId rt_h rt_v rt_d].
  by apply reencode_unsigned.
Qed.

(** An index below 0 or beyond the data array gives the empty array, like an
    empty cell. *)
Theorem getTileData_out_of_range {Areas} (this : Map Areas) (index : Z) :
  index < 0 ∨ Z.of_nat (length (data this)) <= index →
  getTileData this index = RArr [].
Proof.
  intros Hout. rewrite getTileData_cases.
  assert (Hnone : array_get (data this) index = None).
  { unfold array_get. destruct (Z.ltb_spec index 0); [done|].
    apply lookup_ge_None_2. lia. }
  by rewrite Hnone.
Qed.

Lemma getTileData_out_of_range_witness :
  getTileData sampleMap (-1) = RArr [] ∧ getTileData sampleMap 4 = RArr [].
Proof.
  split; apply getTileData_out_of_range; simpl; lia.
Defined.

(** Decoding loses nothing: for a cell that is not empty and holds unsigned
    32-bit identifiers, the entries [getTileData] returns stand for the
    identifiers of the cell, one entry per identifier in the same order, a
    scalar for a scalar and an array for an array. *)
Theorem getTileData_lossless {Areas} (this : Map Areas) (index : Z)
    (cell : Tile) :
  array_get (data this) index = Some cell →
  cell ≠ Single 0 →
  Forall (λ n, 0 <= n < 2 ^ 32) (tileIds cell) →
  regionIds (getTileData this index) = tileIds cell ∧
  match cell, getTileData this index with
  | Single _, RTile _ => True
  | Stack l, RArr entries => length entries = length l
  | _, _ => False
  end.
Proof.
  intros Hcell Hne Hids. rewrite getTileData_cases, Hcell.
  destruct cell as [n|l]; cbn [tileIds] in *.
  - destruct (Z.eqb_spec n 0) as [->|]; [done|]. cbn [regionIds].
    rewrite Forall_singleton in Hids.
    by rewrite entryId_decodeEntry.
  - split; [|by rewrite length_map]. cbn [regionIds].
    clear Hcell Hne. induction Hids as [|n l Hn _ IH]; [done|].
    cbn [map]. by rewrite entryId_decodeEntry, IH.
Qed.

Lemma getTileData_lossless_witness :
  regionIds (getTileData sampleMap 2) = [3; 2 ^ 31 + 6].
Proof.
  apply (getTileData_lossless sampleMap 2 (Stack [3; 2 ^ 31 + 6]));
    [reflexivity|discriminate|].
  apply Forall_cons_2; [lia|]. apply Forall_cons_2; [lia|]. apply Forall_nil_2.
Defined.

(** ** Area groups and the iterators *)

Lemma loadAreas_dom {Areas}
    (AreasIndex : gmap string (list ProcessedArea → Areas))
    (rawAreas : gmap string (list ProcessedArea)) :
  dom (loadAreas AreasIndex rawAreas) = dom rawAreas ∩ dom AreasIndex.
Proof.
  apply set_eq. intros key.
  rewrite elem_of_intersection, !elem_of_dom, loadAreas_lookup.
  destruct (rawAreas !! key), (AreasIndex !! key);
    split; try intros [Hraw Hidx]; try done;
    first [by apply is_Some_None in Hraw|by apply is_Some_None in Hidx].
Qed.

(** The groups of a map are those of the dataset that the index knows, no
    more and no less: an unknown key of the dataset is skipped, a key of the
    index without a group in the dataset stays absent, and an empty dataset
    gives no group. *)
Theorem loadAreas_keys {Areas}
    (AreasIndex : gmap string (list ProcessedArea → Areas))
    (rawAreas : gmap string (list ProcessedArea)) :
  dom (loadAreas AreasIndex rawAreas) = dom rawAreas ∩ dom AreasIndex ∧
  (∀ key, AreasIndex !! key = None →
          loadAreas AreasIndex rawAreas !! key = None) ∧
  (∀ key, rawAreas !! key = None →
          loadAreas AreasIndex rawAreas !! key = None) ∧
  loadAreas AreasIndex ∅ = ∅.
Proof.
  split; [apply loadAreas_dom|split; [|split; [|done]]].
  - intros key Hkey. rewrite loadAreas_lookup, Hkey.
    by destruct (rawAreas !! key).
  - intros key Hkey. by rewrite loadAreas_lookup, Hkey.
Qed.

Lemma loadAreas_keys_witness :
  loadAreas sampleIndex (pm_areas sampleAreasMap) !! "music" = None.
Proof.
  pose proof (loadAreas_keys sampleIndex (pm_areas sampleAreasMap))
    as (_ & Hunknown & _).
  apply Hunknown. reflexivity.
Defined.

(** Area groups are built apart from each other: replacing or removing the
    dataset group of one key leaves the group built for any other key as it
    was. *)
Theorem loadAreas_isolated {Areas}
    (AreasIndex : gmap string (list ProcessedArea → Areas))
    (rawAreas : gmap string (list ProcessedArea))
    (changed key : string) (group : list ProcessedArea) :
  changed ≠ key →
  loadAreas AreasIndex (<[changed := group]> rawAreas) !! key
  = loadAreas AreasIndex rawAreas !! key ∧
  loadAreas AreasIndex (delete changed rawAreas) !! key
  = loadAreas AreasIndex rawAreas !! key.
Proof.
  intros Hne. rewrite !loadAreas_lookup.
  by rewrite lookup_insert_ne, lookup_delete_ne.
Qed.

Lemma loadAreas_isolated_witness :
  loadAreas sampleIndex (<["chest" := []]> (pm_areas sampleAreasMap))
  !! "chests"
  = loadAreas sampleIndex (pm_areas sampleAreasMap) !! "chests".
Proof.
  apply (loadAreas_isolated sampleIndex (pm_areas sampleAreasMap)
           "chest" "chests" []).
  discriminate.
Defined.

(** [getDynamicAreas] returns the group built from the dataset group of the
    key [dynamic], and nothing when the dataset or the index lacks that key;
    the dataset group of any other key has no part in it. *)
Theorem getDynamicAreas_spec {Areas}
    (AreasIndex : gmap string (list ProcessedArea → Areas))
    (map : ProcessedMap) :
  getDynamicAreas (new_Map AreasIndex map) =
    match pm_areas map !! "dynamic", AreasIndex !! "dynamic" with
    | Some area, Some construct => Some (construct area)
    | _, _ => None
    end ∧
  (∀ key group, key ≠ "dynamic" →
     getDynamicAreas
       (new_Map AreasIndex
          (mkProcessedMap (pm_width map) (pm_height map) (pm_data map)
             (pm_collisions map) (pm_objects map) (pm_cursors map)
             (<[key := group]> (pm_areas map))))
     = getDynamicAreas (new_Map AreasIndex map)).
Proof.
  unfold getDynamicAreas, new_Map. cbn [areas pm_areas].
  split; [apply loadAreas_lookup|].
  intros key group Hne. rewrite !loadAreas_lookup.
  by rewrite lookup_insert_ne.
Qed.

Lemma foldr_record {A B} (l : list (A * B)) :
  foldr (uncurry (λ (a : A) (b : B) (acc : list (A * B)), (a, b) :: acc))
    [] l = l.
Proof.
  induction l as [|[a b] l IH]; simpl; [done|]. by rewrite IH.
Qed.

(** After construction [forEachAreas] calls back once for every dataset group
    whose key the index knows, with the group built from it and its key, and
    for nothing else. *)
Theorem forEachAreas_visits {Areas}
    (AreasIndex : gmap string (list ProcessedArea → Areas))
    (map : ProcessedMap) :
  let visited :=
    forEachAreas (new_Map AreasIndex map)
      (λ a name (acc : list (string * Areas)), (name, a) :: acc) [] in
  NoDup visited.*1 ∧
  length visited = size (dom (pm_areas map) ∩ dom AreasIndex) ∧
  (∀ name a,
     (name, a) ∈ visited ↔
     ∃ raw construct,
       pm_areas map !! name = Some raw ∧ AreasIndex !! name = Some construct ∧
       a = construct raw).
Proof.
  intros visited.
  assert (Hvisited :
    visited = map_to_list (loadAreas AreasIndex (pm_areas map))).
  { subst visited. unfold forEachAreas, new_Map. cbn [areas].
    rewrite map_fold_foldr. apply foldr_record. }
  rewrite Hvisited. split; [apply NoDup_fst_map_to_list|]. split.
  - rewrite length_map_to_list, <- size_dom.
    by rewrite loadAreas_dom.
  - intros name a. rewrite elem_of_map_to_list, loadAreas_lookup.
    split.
    + destruct (pm_areas map !! name) as [raw|]; [|done].
      destruct (AreasIndex !! name) as [construct|]; [|done].
      intros [= <-]. by exists raw, construct.
    + by intros (raw & construct & -> & -> & ->).
Qed.

Lemma getDynamicAreas_spec_witness :
  getDynamicAreas
    (new_Map sampleIndex
       (mkProcessedMap 10 10 [] None [] ∅
          (<["chest" := []]> (pm_areas sampleAreasMap))))
  = getDynamicAreas (new_Map sampleIndex sampleAreasMap).
Proof.
  apply (proj2 (getDynamicAreas_spec sampleIndex sampleAreasMap)).
  discriminate.
Defined.

Lemma foldr_positions (w : Z) (l : list (Z * string)) :
  foldr
    (uncurry (λ (tileId : Z) (key : string) (acc : list ((Z * Z) * string)),
                (indexToCoord_double w tileId, key) :: acc))
    [] l
  = (λ entry, (indexToCoord_double w entry.1, entry.2)) <$> l.
Proof.
  induction l as [|[i key] l IH]; simpl; [done|]. by rewrite IH.
Qed.

(** In a grid of non-negative width and at most [2 ^ 53] tiles, when every
    key of the entities object is an index of the grid, [forEachEntity]
    reports each entity once, at the position of its index: that position is
    in bounds, converts back to the index, and no two entities are reported
    at the same position. *)
Theorem forEachEntity_positions (w h : Z) (entities : gmap Z string) :
  0 <= w → w * h <= 2 ^ 53 →
  (∀ i key, entities !! i = Some key → 0 <= i < w * h) →
  let visited :=
    forEachEntity w entities
      (λ position key (acc : list ((Z * Z) * string)),
         (position, key) :: acc) [] in
  length visited = size entities ∧
  NoDup visited.*1 ∧
  (∀ position key,
     (position, key) ∈ visited ↔
     ∃ i, entities !! i = Some key ∧ position = indexToCoord_double w i) ∧
  (∀ position key,
     (position, key) ∈ visited →
     0 <= position.1 < w ∧ 0 <= position.2 < h ∧
     entities !! coordToIndex_double w position.1 position.2 = Some key).
Proof.
  intros Hw Hsize Hrange visited.
  assert (Hvisited : visited
    = (λ entry, (indexToCoord_double w entry.1, entry.2))
      <$> map_to_list entities).
  { subst visited. unfold forEachEntity. rewrite map_fold_foldr.
    apply foldr_positions. }
  assert (Hin : ∀ position key,
    (position, key) ∈ visited ↔
    ∃ i, entities !! i = Some key ∧ position = indexToCoord_double w i).
  { intros position key. rewrite Hvisited, list_elem_of_fmap. split.
    - intros ([i key'] & [= -> ->] & Hentry).
      apply elem_of_map_to_list in Hentry. by exists i.
    - intros (i & Hi & ->). exists (i, key). split; [done|].
      by apply elem_of_map_to_list. }
  assert (Hexact : ∀ i key, entities !! i = Some key →
    indexToCoord_double w i = indexToCoord w i).
  { intros i key Hi. apply (grid_position_exact w h); eauto. }
  assert (Hback : ∀ i key, entities !! i = Some key →
    coordToIndex_double w (indexToCoord_double w i).1
      (indexToCoord_double w i).2 = i).
  { intros i key Hi. pose proof (Hrange i key Hi) as Hgrid.
    rewrite (Hexact i key Hi).
    destruct (indexToCoord_range w h i Hw Hgrid) as [Hx Hy].
    rewrite (proj1 (grid_index_exact w h _ _ Hsize Hx Hy)).
    apply coordToIndex_indexToCoord; [|lia].
    destruct (Z.eq_dec w 0) as [->|]; lia. }
  split; [by rewrite Hvisited, length_fmap, length_map_to_list|].
  split; [|split; [done|]].
  - rewrite Hvisited, <- list_fmap_compose.
    apply NoDup_fmap_2_strong; [|apply NoDup_map_to_list].
    intros [i key] [j key'] Hi Hj Hsame. simpl in Hsame.
    apply elem_of_map_to_list in Hi, Hj.
    assert (i = j) as ->.
    { rewrite <- (Hback i key Hi), <- (Hback j key' Hj). by rewrite Hsame. }
    f_equal. congruence.
  - intros position key Hvis. apply Hin in Hvis as (i & Hi & ->).
    rewrite (Hback i key Hi). rewrite (Hexact i key Hi).
    destruct (indexToCoord_range w h i Hw (Hrange i key Hi)) as [Hx Hy].
    done.
Qed.

Lemma forEachEntity_positions_witness :
  length
    (forEachEntity 4 {[ 5 := "rat"; 11 := "guard" ]}
       (λ position key (acc : list ((Z * Z) * string)),
          (position, key) :: acc) [])
  = size ({[ 5 := "rat"; 11 := "guard" ]} : gmap Z string).
Proof.
  apply (forEachEntity_positions 4 3 {[ 5 := "rat"; 11 := "guard" ]});
    [lia|lia|].
  intros i key Hi.
  destruct (decide (i = 5)) as [->|]; [lia|].
  destruct (decide (i = 11)) as [->|]; [lia|].
  rewrite lookup_insert_ne, lookup_singleton_ne in Hi by done. discriminate.
Defined.

(** ** Poison *)



(** ** Object ids *)

Lemma pretty_N_go_dashless (x : N) (s : string) :
  dashless s → dashless (pretty_N_go x s).
Proof.
  revert s. induction (N.lt_wf_0 x) as [x _ IH]; intros s Hs.
  assert (x = 0 ∨ 0 < x)%N as [->|Hpos] by lia.
  - by rewrite pretty_N_go_0.
  - rewrite pretty_N_go_step by done. apply IH.
    { by apply N.div_lt. }
    split; [|done]. unfold pretty_N_char. by repeat case_match.
Qed.

Lemma pretty_nonneg_dashless (z : Z) : 0 <= z → dashless (pretty z).
Proof.
  intros Hz. destruct z as [|p|p]; [by vm_compute| |lia].
  unfold pretty, pretty_Z, pretty, pretty_positive, pretty, pretty_N.
  rewrite decide_False by done. by apply pretty_N_go_dashless.
Qed.

Lemma dash_split_unique (s1 s2 t1 t2 : string) :
  dashless s1 → dashless s2 →
  s1 +:+ String "-" t1 = s2 +:+ String "-" t2 → s1 = s2 ∧ t1 = t2.
Proof.
  revert s2. induction s1 as [|c s1 IH]; intros [|c' s2] Hs1 Hs2 Heq.
  - change (String "-" t1 = String "-" t2) in Heq. by injection Heq as ->.
  - change (String "-" t1 = String c' (s2 +:+ String "-" t2)) in Heq.
    injection Heq as Hc _. by destruct Hs2 as [[] _].
  - change (String c (s1 +:+ String "-" t1) = String "-" t2) in Heq.
    injection Heq as Hc _. by destruct Hs1 as [[] _].
  - change (String c (s1 +:+ String "-" t1)
            = String c' (s2 +:+ String "-" t2)) in Heq.
    injection Heq as -> Hrest.
    destruct (IH s2 (proj2 Hs1) (proj2 Hs2) Hrest) as [-> ->]. done.
Qed.

Lemma numberToString_small (z : Z) :
  0 <= z <= 2 ^ 53 → numberToString z = Some (pretty z).
Proof.
  intros Hz. unfold numberToString. rewrite Z.abs_eq by lia.
  destruct (Z.leb_spec z (2 ^ 53)); [done|lia].
Qed.

(** The object id of an index of the grid, written out. *)
Lemma getObjectId_grid (w h i : Z) :
  0 <= w → w * h <= 2 ^ 53 → 0 <= i < w * h →
  getObjectId w i
  = Some (pretty (indexToCoord w i).1
          +:+ String "-" (pretty (indexToCoord w i).2)).
Proof.
  intros Hw Hsize Hi. unfold getObjectId.
  rewrite (grid_position_exact w h i Hw Hsize Hi).
  destruct (indexToCoord_range w h i Hw Hi) as [Hx Hy].
  assert (Hpos : 0 < w).
  { destruct (Z.eq_dec w 0) as [Hz|]; [rewrite Hz in Hi|]; lia. }
  pose proof (coordToIndex_indexToCoord w i Hpos ltac:(lia)) as Hback.
  unfold coordToIndex in Hback.
  assert (Hsmall : (indexToCoord w i).2 <= (indexToCoord w i).2 * w) by nia.
  rewrite !numberToString_small by lia. done.
Qed.

(** In a grid of non-negative width and at most [2 ^ 53] tiles, the object
    id of the index of a position in bounds spells the two coordinates in
    decimal around a minus sign, and two indices of the grid with the same
    object id are the same index. *)
Theorem getObjectId_inj (w h : Z) :
  0 <= w → w * h <= 2 ^ 53 →
  (∀ x y, 0 <= x < w → 0 <= y < h →
     getObjectId w (coordToIndex_double w x y)
     = Some (pretty x +:+ "-" +:+ pretty y)) ∧
  (∀ i j, 0 <= i < w * h → 0 <= j < w * h →
     getObjectId w i = getObjectId w j → i = j).
Proof.
  intros Hw Hsize.
  split.
  - intros x y Hx Hy.
    destruct (grid_index_exact w h x y Hsize Hx Hy) as [-> Hin].
    rewrite (getObjectId_grid w h) by done.
    rewrite indexToCoord_coordToIndex by lia. done.
  - intros i j Hi Hj Hid.
    rewrite !(getObjectId_grid w h) in Hid by done.
    assert (Hpos : 0 < w).
    { destruct (Z.eq_dec w 0) as [Hz|]; [rewrite Hz in Hi|]; lia. }
    rewrite !indexToCoord_nonneg in Hid by lia. cbn [fst snd] in Hid.
    injection Hid as Hid.
    pose proof (Z.mod_pos_bound i w Hpos). pose proof (Z.mod_pos_bound j w Hpos).
    apply dash_split_unique in Hid as [Hx Hy];
      [|apply pretty_nonneg_dashless; lia..].
    apply (inj pretty) in Hx, Hy.
    pose proof (Z.div_mod i w) as Hdi. pose proof (Z.div_mod j w) as Hdj.
    rewrite Hx, Hy in Hdi. lia.
Qed.

Lemma getObjectId_inj_witness :
  getObjectId 4 (coordToIndex_double 4 3 2) = Some "3-2" ∧
  (getObjectId 4 11 = getObjectId 4 11 → 11 = 11).
Proof.
  pose proof (getObjectId_inj 4 3) as [Hspell Hinj]; [lia|lia|]. split.
  - rewrite Hspell by lia. reflexivity.
  - apply Hinj; lia.
Defined.

(** ** Doors in pairs, and datasets without optional parts *)

Lemma NoDup_fmap_split {A B} (f : A → B) (before after : list A) (a : A) :
  NoDup (f <$> before ++ a :: after) →
  Forall (λ c, f c ≠ f a) before ∧ Forall (λ c, f c ≠ f a) after.
Proof.
  rewrite fmap_app, fmap_cons. intros Hnd.
  apply NoDup_app in Hnd as (_ & Hbefore & Hafter).
  apply NoDup_cons in Hafter as [Hafter _].
  split; apply Forall_forall; intros c Hc Heq.
  - apply (Hbefore (f c)); [by apply list_elem_of_fmap_2|].
    rewrite Heq. by left.
  - apply Hafter. rewrite <- Heq. by apply list_elem_of_fmap_2.
Qed.

(** With distinct ids and distinct tile indices, a door that names the id of
    a raw door is linked to that door. *)
Lemma loadDoors_linked (w : Z) (rawDoors : list ProcessedArea)
    (log0 : list string) (door dest : ProcessedArea) :
  NoDup (a_id <$> rawDoors) →
  NoDup ((λ d, coordToIndex w (a_x d) (a_y d)) <$> rawDoors) →
  door ∈ rawDoors → dest ∈ rawDoors →
  a_destination door = Some (a_id dest) → a_id dest ≠ 0 →
  ls_doors (loadDoors w rawDoors log0)
  !! coordToIndex w (a_x door) (a_y door)
  = Some (linkedEntry door dest).
Proof.
  intros Hids Htiles Hdoor Hdest Hnames Hnz.
  apply loadDoors_lookup.
  apply list_elem_of_split in Hdoor as (before & after & Hsplit).
  apply list_elem_of_split in Hdest as (c1 & c2 & Hclone).
  exists before, door, after, dest. split; [done|]. split.
  - exists (a_id dest). split; [done|]. split; [done|].
    exists c1, c2. split; [done|]. split; [done|].
    rewrite Hclone in Hids. by apply (NoDup_fmap_split a_id) in Hids as [? _].
  - split; [done|]. split; [done|].
    rewrite Hsplit in Htiles.
    apply (NoDup_fmap_split (λ d, coordToIndex w (a_x d) (a_y d)))
      in Htiles as [_ Hafter].
    eapply Forall_impl; [exact Hafter|]. by intros later Hne Heq.
Qed.

(** Doors in pairs lead to each other: when ids and tile indices are distinct
    and two raw doors name each other's non-zero id, the entry on the tile of
    the first leads to the position of the second, and the entry found at
    that position leads back to the position of the first. *)
Theorem paired_doors (w : Z) (rawDoors : list ProcessedArea)
    (log0 : list string) (a b : ProcessedArea) :
  NoDup (a_id <$> rawDoors) →
  NoDup ((λ d, coordToIndex w (a_x d) (a_y d)) <$> rawDoors) →
  a ∈ rawDoors → b ∈ rawDoors →
  a_destination a = Some (a_id b) → a_destination b = Some (a_id a) →
  a_id a ≠ 0 → a_id b ≠ 0 →
  let table := ls_doors (loadDoors w rawDoors log0) in
  ∃ there back,
    table !! coordToIndex w (a_x a) (a_y a) = Some there ∧
    (d_x there, d_y there) = (a_x b, a_y b) ∧
    table !! coordToIndex w (d_x there) (d_y there) = Some back ∧
    (d_x back, d_y back) = (a_x a, a_y a).
Proof.
  intros Hids Htiles Ha Hb Hab Hba Hnza Hnzb table.
  exists (linkedEntry a b), (linkedEntry b a). subst table.
  split; [by apply loadDoors_linked|]. split; [done|].
  split; [|done]. by apply loadDoors_linked.
Qed.

Lemma paired_doors_witness :
  ∃ there back,
    ls_doors
      (loadDoors 20 [mkArea 1 5 5 (Some 2) None None None None;
                     mkArea 2 10 10 (Some 1) (Some "u") None None None] [])
    !! coordToIndex 20 5 5 = Some there ∧
    (d_x there, d_y there) = (10, 10) ∧
    ls_doors
      (loadDoors 20 [mkArea 1 5 5 (Some 2) None None None None;
                     mkArea 2 10 10 (Some 1) (Some "u") None None None] [])
    !! coordToIndex 20 (d_x there) (d_y there) = Some back ∧
    (d_x back, d_y back) = (5, 5).
Proof.
  apply (paired_doors 20
           [mkArea 1 5 5 (Some 2) None None None None;
            mkArea 2 10 10 (Some 1) (Some "u") None None None] []
           (mkArea 1 5 5 (Some 2) None None None None)
           (mkArea 2 10 10 (Some 1) (Some "u") None None None));
    try reflexivity; try (simpl; lia).
  - apply NoDup_cons_2; [|apply NoDup_singleton].
    rewrite list_elem_of_singleton. simpl. lia.
  - apply NoDup_cons_2; [|apply NoDup_singleton].
    rewrite list_elem_of_singleton. vm_compute. discriminate.
  - by left.
  - right. by left.
Defined.

(** A dataset without a collision array blocks nothing by itself: a position
    collides exactly when it is out of bounds or its cell is absent or 0. A
    dataset without a [chest] group gives an empty [chest] list. *)
Theorem new_Map_defaults {Areas}
    (AreasIndex : gmap string (list ProcessedArea → Areas))
    (map : ProcessedMap) (x y : Z) :
  let this := new_Map AreasIndex map in
  (pm_collisions map = None →
   (∀ index, isCollisionIndex this index = false) ∧
   isColliding this x y
   = isOutOfBounds this x y
     || cell_falsy
          (array_get (pm_data map) (coordToIndex (pm_width map) x y))) ∧
  (pm_areas map !! "chest" = None → chest this = []).
Proof.
  intros this. split.
  - intros Hnone.
    assert (Hfree : ∀ index, isCollisionIndex this index = false).
    { intros index. unfold isCollisionIndex, includes, this, new_Map.
      cbn [collisions]. rewrite Hnone. apply bool_decide_eq_false.
      apply not_elem_of_nil. }
    split; [done|]. unfold isColliding. rewrite Hfree, orb_false_r.
    by destruct (isOutOfBounds this x y).
  - intros Hnone. unfold this, new_Map. cbn [chest]. by rewrite Hnone.
Qed.

Lemma new_Map_defaults_witness :
  isCollisionIndex (new_Map sampleIndex chestsMap) 6 = false ∧
  chest (new_Map sampleIndex chestsMap) = [].
Proof.
  pose proof (new_Map_defaults sampleIndex chestsMap 0 0)
    as (Hcollisions & Hchest).
  split; [by apply Hcollisions|by apply Hchest].
Defined.
